(** * Guitar fretboard trainer: a shallow embedding of [app.js]

    The development follows the layout of [app.js]: the note tables and the
    pitch arithmetic, the persisted settings and statistics, the quiz round
    ([newPosition], [handleGuess]) and the event handlers of the settings
    and statistics panels.

    Conventions used throughout.
    - A JavaScript value that is either a non-negative integer or
      [undefined]/[NaN] is an [option nat]; a value that is either a string
      or [undefined] is an [option string].
    - Counters are JavaScript numbers holding integers; below 2^53 the
      arithmetic of [++] on them is exact and is written [+ 1] on [Z].
    - [localStorage] is a record with one slot per key the program uses.
    - The DOM is represented only by the visibility of the Next button,
      the one piece of it that the control flow reads back. *)

From stdpp Require Import gmap strings list fin_maps pretty.

Set Warnings "-register-all".
Open Scope Z_scope.

(** ** JavaScript values coming out of [JSON.parse] *)

(** Numbers are restricted to integers, which is what the program itself
    writes; an object is the finite map of its own properties. *)
Inductive json : Type :=
  | JNull
  | JBool (b : bool)
  | JNum (n : Z)
  | JStr (s : string)
  | JArr (l : list json)
  | JObj (m : gmap string json).

(** [Boolean(v)] for a parsed value: [null], [false], [0] and the empty
    string are falsy, everything else (arrays and objects included) is
    truthy. *)
Definition truthy (v : json) : bool :=
  match v with
  | JNull => false
  | JBool b => b
  | JNum n => negb (n =? 0)
  | JStr s => negb (String.eqb s "")
  | JArr _ => true
  | JObj _ => true
  end.

(** The property key a value is converted to when it indexes an object:
    [obj[undefined]] reads the key ["undefined"]. *)
Definition prop_key (v : option string) : string :=
  match v with
  | Some s => s
  | None => "undefined"
  end.

(** [String(n)] for a non-negative integer, and the property key of a
    number that may be [undefined]. *)
Definition num_key (v : option nat) : string :=
  match v with
  | Some n => pretty n
  | None => "undefined"
  end.

(** 2^53.  A JavaScript number holds every integer from [-2^53] to [2^53];
    a sum of two integers is exact when it lies in that range, and [n++]
    adds exactly one for [n] from [-2^53] to [2^53 - 1], while at [2^53] it
    leaves the number as it is.  The [+] and [+ 1] of this development
    are those of the code in that range, and what is stated about exact
    sums and counts is stated for it. *)
Definition MAX_EXACT : Z := 9007199254740992.

(** [n++] adds exactly one. *)
Definition exact (n : Z) : Prop := - MAX_EXACT ≤ n < MAX_EXACT.

(** [k] times [n++] adds exactly [k]. *)
Definition room (k : nat) (n : Z) : Prop :=
  - MAX_EXACT ≤ n ∧ n + Z.of_nat k ≤ MAX_EXACT.

(** ** Note tables and pitch arithmetic *)

Module PitchModel.

Definition NOTES : list string :=
  ["C"; "C#"; "D"; "D#"; "E"; "F"; "F#"; "G"; "G#"; "A"; "A#"; "B"].

Definition NOTE_DISPLAY : list string :=
  ["A"; "A#/Bb"; "B"; "C"; "C#/Db"; "D"; "D#/Eb"; "E"; "F"; "F#/Gb"; "G";
   "G#/Ab"].

Definition STRING_NOTES : list string := ["E"; "B"; "G"; "D"; "A"; "E"].

Definition STRING_START_INDICES : list nat := [4; 11; 7; 2; 9; 4]%nat.

Definition FRET_COUNT : nat := 13.

(** [function getNoteAtPosition(stringIndex, fret)].  An index outside the
    table reads [undefined], [undefined + fret] is [NaN], and [NOTES[NaN]]
    is [undefined]. *)
Definition getNoteAtPosition (stringIndex fret : option nat) : option string :=
  match stringIndex ≫= (λ s, STRING_START_INDICES !! s), fret with
  | Some startIndex, Some f => NOTES !! ((startIndex + f) `mod` 12)%nat
  | _, _ => None
  end.

(** [Array.prototype.indexOf]: the first position holding [x], or [-1]. *)
Fixpoint indexOf (x : string) (l : list string) : Z :=
  match l with
  | [] => -1
  | y :: l' =>
      if String.eqb x y then 0
      else let r := indexOf x l' in if r <? 0 then -1 else r + 1
  end.

Definition displayMap : gmap string string :=
  list_to_map
    [("C", "C"); ("C#", "C#/Db"); ("D", "D"); ("D#", "D#/Eb");
     ("E", "E"); ("F", "F"); ("F#", "F#/Gb"); ("G", "G");
     ("G#", "G#/Ab"); ("A", "A"); ("A#", "A#/Bb"); ("B", "B")].

(** [function getNoteDisplayName(note)]: the result is [displayMap[note]];
    the [indexOf] the source computes first is not used. *)
Definition getNoteDisplayName (note : option string) : option string :=
  displayMap !! prop_key note.

(** The pitch class of an open string, read off the tuning written with
    note names ([STRING_NOTES]) rather than off the index table. *)
Definition openStringPitchClass (stringIndex : nat) : Z :=
  match STRING_NOTES !! stringIndex with
  | Some n => indexOf n NOTES
  | None => -1
  end.

End PitchModel.

(** ** [localStorage] *)

(** What [getItem] followed by [JSON.parse] makes of a key: the key is
    absent ([getItem] gives [null]), holds the empty string (falsy, so it is
    never parsed), holds text that [JSON.parse] rejects with a
    [SyntaxError], or holds text that parses to a value. *)
Inductive slot : Type :=
  | Absent
  | Blank
  | Garbled
  | Parsed (v : json).

(** The two keys of the program, [STORAGE_KEY] and [SETTINGS_KEY], and
    whether [setItem] throws (quota exceeded).  A browser decides at each
    write, from the size written; here it is one flag that no operation
    changes, so that a run is one where every write succeeds or one where
    every write fails. *)
Record localStorage : Type := {
  stats_slot : slot;
  settings_slot : slot;
  quota_full : bool
}.

Inductive storage_key : Type := STORAGE_KEY | SETTINGS_KEY.

Definition getItem (k : storage_key) (ls : localStorage) : slot :=
  match k with
  | STORAGE_KEY => stats_slot ls
  | SETTINGS_KEY => settings_slot ls
  end.

(** [localStorage.setItem(k, JSON.stringify(v))]; [None] when it throws. *)
Definition setItem (k : storage_key) (v : json) (ls : localStorage)
  : option localStorage :=
  if quota_full ls then None
  else Some
    match k with
    | STORAGE_KEY =>
        {| stats_slot := Parsed v; settings_slot := settings_slot ls;
           quota_full := quota_full ls |}
    | SETTINGS_KEY =>
        {| stats_slot := stats_slot ls; settings_slot := Parsed v;
           quota_full := quota_full ls |}
    end.

Definition removeItem (k : storage_key) (ls : localStorage) : localStorage :=
  match k with
  | STORAGE_KEY =>
      {| stats_slot := Absent; settings_slot := settings_slot ls;
         quota_full := quota_full ls |}
  | SETTINGS_KEY =>
      {| stats_slot := stats_slot ls; settings_slot := Absent;
         quota_full := quota_full ls |}
  end.

(** ** Settings *)

Module SettingsStore.

(** A JavaScript array whose elements came from [JSON.parse] or were
    written by the handlers; [None] is a hole, which assignment past the
    end of an array creates. *)
Abbreviation jsarray := (list (option json)).

Record Settings : Type := {
  frets : jsarray;
  strings : jsarray
}.

Definition all_true (n : nat) : jsarray := replicate n (Some (JBool true)).

Definition default_settings : Settings :=
  {| frets := all_true 13; strings := all_true 6 |}.


(** [a[i] = v]: inside the array the element is replaced, past the end the
    array grows and the indices in between become holes. *)
Definition array_set (a : jsarray) (i : nat) (v : json) : jsarray :=
  if decide (i < length a)%nat then <[i := Some v]> a
  else a ++ replicate (i - length a) None ++ [Some v].

(** [Boolean(x)] for an element as [filter] and [map] see it; a hole is
    never passed to the callback, which amounts to dropping it. *)
Definition enabled (o : option json) : bool :=
  match o with
  | Some v => truthy v
  | None => false
  end.

(** [a[i]], converted to a boolean: a hole or an index past the end reads
    [undefined]. *)
Definition read_truthy (a : jsarray) (i : nat) : bool :=
  match a !! i with
  | Some o => enabled o
  | None => false
  end.

(** [a.filter(Boolean).length]: holes are skipped by [filter]. *)
Definition activeCount (a : jsarray) : nat :=
  length (filter (λ o, Is_true (enabled o)) a).

(** [a.map(f)] with [f] reading the index only: holes stay holes. *)
Definition map_index (f : nat → json) (a : jsarray) : jsarray :=
  imap (λ i o, match o with Some _ => Some (f i) | None => None end) a.

(** [JSON.stringify] of an array writes [null] for a hole. *)
Definition stringify_array (a : jsarray) : json :=
  JArr (map (λ o, match o with Some v => v | None => JNull end) a).

Definition stringify_settings (s : Settings) : json :=
  JObj (<["frets" := stringify_array (frets s)]>
        (<["strings" := stringify_array (strings s)]> ∅)).

(** One field of [loadSettings]: [parsed.f && Array.isArray(parsed.f) &&
    parsed.f.length === n] keeps the parsed array, anything else keeps the
    current value. *)
Definition load_field (m : gmap string json) (f : string) (n : nat)
    (current : jsarray) : jsarray :=
  match m !! f with
  | Some (JArr l) => if decide (length l = n) then map Some l else current
  | _ => current
  end.

(** [function loadSettings()].  Reading a property of [null] throws a
    [TypeError], which the [catch] swallows like the [SyntaxError] of
    [JSON.parse]; a primitive or an array has no [frets] or [strings]
    property. *)
Definition loadSettings (ls : localStorage) (settings : Settings) : Settings :=
  match getItem SETTINGS_KEY ls with
  | Parsed (JObj m) =>
      {| frets := load_field m "frets" 13 (frets settings);
         strings := load_field m "strings" 6 (strings settings) |}
  | _ => settings
  end.

(** [function saveSettings()]: a failing write is logged and swallowed. *)
Definition saveSettings (settings : Settings) (ls : localStorage)
  : localStorage :=
  match setItem SETTINGS_KEY (stringify_settings settings) ls with
  | Some ls' => ls'
  | None => ls
  end.

(** The click handler of [#fret-toggles] and of [#string-toggles], on a
    button whose [data-fret] (or [data-string]) attribute is the index [i];
    it works on one of the two arrays.  The click is rejected
    ([if (!newValue && activeCount <= 1) return]) when it would switch off
    the last enabled element. *)
Definition toggle_rejected (a : jsarray) (i : nat) : bool :=
  let newValue := negb (read_truthy a i) in
  negb newValue && (activeCount a <=? 1)%nat.

Definition toggle (a : jsarray) (i : nat) : jsarray :=
  let newValue := negb (read_truthy a i) in
  if toggle_rejected a i then a
  else array_set a i (JBool newValue).

(** The [All] buttons: [a.map(() => true)]. *)
Definition selectAll (a : jsarray) : jsarray :=
  map_index (λ _, JBool true) a.

(** The [None] buttons: [a.map((_, i) => i === 0)]. *)
Definition selectNone (a : jsarray) : jsarray :=
  map_index (λ i, JBool (i =? 0)%nat) a.

(** Some index of the array reads as enabled. *)
Definition has_enabled (a : jsarray) : Prop :=
  ∃ i, read_truthy a i = true.

(** Index 0 exists and is not a hole. *)
Definition anchored (a : jsarray) : Prop :=
  ∃ v, a !! 0%nat = Some (Some v).

(** The invariant of the settings: each array has an enabled element and
    an element at index 0. *)
Definition settings_ok (s : Settings) : Prop :=
  (has_enabled (frets s) ∧ anchored (frets s))
  ∧ (has_enabled (strings s) ∧ anchored (strings s)).

(** The stored array that [loadSettings] accepts for the field [f], which
    is to have [n] elements, if there is one. *)
Definition accepted_array (ls : localStorage) (f : string) (n : nat)
  : option (list json) :=
  match getItem SETTINGS_KEY ls with
  | Parsed (JObj m) =>
      match m !! f with
      | Some (JArr l) => if decide (length l = n) then Some l else None
      | _ => None
      end
  | _ => None
  end.

End SettingsStore.

(** ** Statistics *)

Module StatsStore.

Import PitchModel.

(** [{ correct, total }] *)
Record Entry : Type := {
  correct : Z;
  total : Z
}.

(** The object [createEmptyStats] builds and [handleGuess] updates. *)
Record StatsRecord : Type := {
  totalCorrect : Z;
  totalAttempts : Z;
  noteStats : gmap string Entry;
  fretStats : gmap string Entry
}.

Definition zero : Entry := {| correct := 0; total := 0 |}.

(** [function createEmptyStats()]: one entry per display note, one per
    fret number [0 .. FRET_COUNT - 1] (the key of a number is its decimal
    text). *)
Definition createEmptyStats : StatsRecord :=
  {| totalCorrect := 0;
     totalAttempts := 0;
     noteStats := foldl (λ m note, <[note := zero]> m) ∅ NOTE_DISPLAY;
     fretStats := foldl (λ m i, <[pretty i := zero]> m) ∅ (seq 0 FRET_COUNT) |}.

(** The lines of [handleGuess] that update one of the two tables: the entry
    is created when the table has none under the key, its [total] is
    incremented, and its [correct] too when the guess was right. *)
Definition bump (isCorrect : bool) (k : string) (m : gmap string Entry)
  : gmap string Entry :=
  let m1 := match m !! k with
            | Some _ => m
            | None => <[k := zero]> m
            end in
  let m2 := alter (λ e, {| correct := correct e; total := total e + 1 |}) k m1 in
  if isCorrect
  then alter (λ e, {| correct := correct e + 1; total := total e |}) k m2
  else m2.

(** Lines 321 to 344 of [handleGuess] on a record, the session counters
    left out: what the specification calls [recordAttempt].  [note] and
    [fret] are the property keys used, that is [correctNote] and
    [currentPosition.fret] converted to keys.  Each [+ 1] is the [++] of
    the code for a counter from [-2^53] to [2^53 - 1] ([exact], below). *)
Definition recordAttempt (stats : StatsRecord) (note fret : string)
    (isCorrect : bool) : StatsRecord :=
  {| totalCorrect :=
       if isCorrect then totalCorrect stats + 1 else totalCorrect stats;
     totalAttempts := totalAttempts stats + 1;
     noteStats := bump isCorrect note (noteStats stats);
     fretStats := bump isCorrect fret (fretStats stats) |}.

(** The JSON shape of a record, and its inverse on values of that shape. *)
Definition encodeEntry (e : Entry) : json :=
  JObj (<["correct" := JNum (correct e)]> (<["total" := JNum (total e)]> ∅)).

Definition encodeStats (r : StatsRecord) : json :=
  JObj (<["totalCorrect" := JNum (totalCorrect r)]>
        (<["totalAttempts" := JNum (totalAttempts r)]>
         (<["noteStats" := JObj (encodeEntry <$> noteStats r)]>
          (<["fretStats" := JObj (encodeEntry <$> fretStats r)]> ∅)))).

Definition decodeEntry (v : json) : option Entry :=
  match v with
  | JObj m =>
      match m !! "correct", m !! "total" with
      | Some (JNum c), Some (JNum t) =>
          if decide (size m = 2%nat)
          then Some {| correct := c; total := t |} else None
      | _, _ => None
      end
  | _ => None
  end.

Definition decodeEntries (m : gmap string json) : option (gmap string Entry) :=
  let m' := omap decodeEntry m in
  if decide (size m' = size m) then Some m' else None.

Definition decodeStats (v : json) : option StatsRecord :=
  match v with
  | JObj m =>
      match m !! "totalCorrect", m !! "totalAttempts",
            m !! "noteStats", m !! "fretStats" with
      | Some (JNum tc), Some (JNum ta), Some (JObj ns), Some (JObj fs) =>
          if decide (size m = 4%nat) then
            match decodeEntries ns, decodeEntries fs with
            | Some ns', Some fs' =>
                Some {| totalCorrect := tc; totalAttempts := ta;
                        noteStats := ns'; fretStats := fs' |}
            | _, _ => None
            end
          else None
      | _, _, _, _ => None
      end
  | _ => None
  end.

(** [function loadStats()]: the parsed value is returned as it is; an
    absent key, an empty string and text that does not parse give the
    record of [createEmptyStats]. *)
Definition loadStats (ls : localStorage) : json :=
  match getItem STORAGE_KEY ls with
  | Parsed v => v
  | _ => encodeStats createEmptyStats
  end.

(** [function saveStats(stats)]: a failing write is logged and swallowed. *)
Definition saveStats (stats : json) (ls : localStorage) : localStorage :=
  match setItem STORAGE_KEY stats ls with
  | Some ls' => ls'
  | None => ls
  end.

(** The entry read under a key, an absent one counting as [{0, 0}]. *)
Definition entry_at (k : string) (m : gmap string Entry) : Entry :=
  default zero (m !! k).

(** An entry after one more attempt. *)
Definition credit (isCorrect : bool) (e : Entry) : Entry :=
  {| correct := if isCorrect then correct e + 1 else correct e;
     total := total e + 1 |}.

(** The record after a list of attempts, each a note key, a fret key and
    whether the guess was right. *)
Definition attempts_from (r : StatsRecord) (l : list (string * string * bool))
  : StatsRecord :=
  foldl (λ r a, recordAttempt r a.1.1 a.1.2 a.2) r l.

(** The sum of the [total] fields of a table. *)
Definition sum_totals (m : gmap string Entry) : Z :=
  map_fold (λ _ e acc, total e + acc) 0 m.

(** What [loadStats] would return is a well-formed record whose
    [totalAttempts] is the sum of the [total] fields of [fretStats]. *)
Definition stats_consistent (ls : localStorage) : Prop :=
  ∃ r, decodeStats (loadStats ls) = Some r
     ∧ totalAttempts r = sum_totals (fretStats r).

(** The keys [handleGuess] uses: under [noteStats], [correctNote], which
    is a label of the wheel, [undefined] or the empty string it is
    initialised with; under [fretStats], a fret number or [undefined].
    None of them is a name that an object inherits. *)
Definition note_key (k : string) : Prop :=
  k ∈ NOTE_DISPLAY ∨ k = "undefined" ∨ k = "".

Definition fret_key (k : string) : Prop :=
  ∃ o : option nat,
    k = num_key o ∧ ∀ i, o = Some i → Z.of_nat i ≤ MAX_EXACT.

(** An attempt on which [recordAttempt] is lines 321 to 344 of the code:
    its keys are keys of the page, and the counters it increments are in
    the range where [++] is exact. *)
Definition attempt_exact (r : StatsRecord) (note fret : string)
    (isCorrect : bool) : Prop :=
  note_key note
  ∧ fret_key fret
  ∧ exact (totalAttempts r)
  ∧ exact (total (entry_at note (noteStats r)))
  ∧ exact (total (entry_at fret (fretStats r)))
  ∧ (isCorrect = true →
       exact (totalCorrect r)
       ∧ exact (correct (entry_at note (noteStats r)))
       ∧ exact (correct (entry_at fret (fretStats r)))).

(** The same for [k] attempts in a row at the same note and fret. *)
Definition attempt_room (k : nat) (r : StatsRecord) (note fret : string)
    (isCorrect : bool) : Prop :=
  note_key note
  ∧ fret_key fret
  ∧ room k (totalAttempts r)
  ∧ room k (total (entry_at note (noteStats r)))
  ∧ room k (total (entry_at fret (fretStats r)))
  ∧ (isCorrect = true →
       room k (totalCorrect r)
       ∧ room k (correct (entry_at note (noteStats r)))
       ∧ room k (correct (entry_at fret (fretStats r)))).

(** Every counter of the record, and a counter starting at 0, has room
    for [k] exact increments. *)
Definition entries_room (k : nat) (m : gmap string Entry) : Prop :=
  ∀ key e, m !! key = Some e → room k (total e) ∧ room k (correct e).

Definition has_room (k : nat) (r : StatsRecord) : Prop :=
  Z.of_nat k ≤ MAX_EXACT
  ∧ room k (totalAttempts r)
  ∧ room k (totalCorrect r)
  ∧ entries_room k (noteStats r)
  ∧ entries_room k (fretStats r).

(** [stats_consistent], with room for [k] attempts. *)
Definition stats_consistent_for (k : nat) (ls : localStorage) : Prop :=
  ∃ r, decodeStats (loadStats ls) = Some r
     ∧ totalAttempts r = sum_totals (fretStats r)
     ∧ has_room k r.

End StatsStore.

(** ** The quiz round *)

Module Round.

Import PitchModel SettingsStore StatsStore.

(** [currentPosition]; a component is [undefined] when it was read past
    the end of an empty array of valid indices. *)
Record Position : Type := {
  pos_string : option nat;
  pos_fret : option nat
}.

(** A pending [setTimeout]: its handle, what it runs and after how long.
    The program schedules one callback only. *)
Inductive callback : Type := run_newPosition.

Record timer : Type := {
  handle : nat;
  action : callback;
  delay : nat
}.

(** The module-level variables of [app.js], [localStorage], the timers of
    the host and the visibility of the Next button. *)
Record state : Type := {
  currentPosition : Position;
  correctNote : option string;
  hasAnswered : bool;
  sessionCorrect : Z;
  sessionTotal : Z;
  autoAdvanceTimeout : option nat;
  settings : Settings;
  storage : localStorage;
  timers : list timer;
  last_handle : nat;
  nextBtn_hidden : bool
}.

(** One value of [Math.random()], the fraction [num / den] of the unit
    interval; [Math.floor(Math.random() * n)] is then [num * n / den]
    rounded down.  (The product is rounded to a double before [floor];
    for [0 <= num / den < 1] the rounded product stays below [n].) *)
Record draw : Type := {
  num : nat;
  den : nat
}.

Definition in_unit_interval (r : draw) : Prop := (num r < den r)%nat.

Definition floor_scaled (r : draw) (n : nat) : nat := (num r * n / den r)%nat.

(** [a.map((enabled, i) => enabled ? i : -1).filter(i => i >= 0)] *)
Definition valid_indices (a : jsarray) : list nat :=
  let mapped : list (option Z) :=
    imap (λ i o, match o with
                 | Some v => Some (if truthy v then Z.of_nat i else -1)
                 | None => None
                 end) a in
  omap (λ o, match o with
             | Some i => if 0 <=? i then Some (Z.to_nat i) else None
             | None => None
             end) mapped.

(** [clearTimeout(h)] *)
Definition clearTimeout (h : nat) (ts : list timer) : list timer :=
  filter (λ t, handle t ≠ h) ts.

(** The first four lines of [newPosition]: a handle is a positive
    integer, so [if (autoAdvanceTimeout)] holds exactly when one is
    stored. *)
Definition cancel_auto_advance (w : state) : state :=
  match autoAdvanceTimeout w with
  | Some (S h) =>
      {| currentPosition := currentPosition w;
         correctNote := correctNote w;
         hasAnswered := hasAnswered w;
         sessionCorrect := sessionCorrect w;
         sessionTotal := sessionTotal w;
         autoAdvanceTimeout := None;
         settings := settings w;
         storage := storage w;
         timers := clearTimeout (S h) (timers w);
         last_handle := last_handle w;
         nextBtn_hidden := nextBtn_hidden w |}
  | _ => w
  end.

(** [function newPosition()].  [rs] and [rf] are the two values of
    [Math.random()], in the order the object literal evaluates them:
    [string] first, [fret] second. *)
Definition newPosition (rs rf : draw) (w : state) : state :=
  let w1 := cancel_auto_advance w in
  let validFrets := valid_indices (frets (settings w1)) in
  let validStrings := valid_indices (strings (settings w1)) in
  let position :=
    {| pos_string := validStrings !! floor_scaled rs (length validStrings);
       pos_fret := validFrets !! floor_scaled rf (length validFrets) |} in
  {| currentPosition := position;
     correctNote :=
       getNoteDisplayName
         (getNoteAtPosition (pos_string position) (pos_fret position));
     hasAnswered := false;
     sessionCorrect := sessionCorrect w1;
     sessionTotal := sessionTotal w1;
     autoAdvanceTimeout := autoAdvanceTimeout w1;
     settings := settings w1;
     storage := storage w1;
     timers := timers w1;
     last_handle := last_handle w1;
     nextBtn_hidden := true |}.

(** How a handler ends: it returns, or a [TypeError] escapes it; either
    way the state it leaves behind is recorded. *)
Inductive outcome : Type :=
  | Returns (w : state)
  | Throws (w : state).

Definition final (o : outcome) : state :=
  match o with
  | Returns w => w
  | Throws w => w
  end.

Section HandleGuess.

(** What lines 321 to 344 of [handleGuess] do with a value that
    [JSON.parse] produced and that is neither [null] nor of the shape
    [encodeStats] writes.  The coercions of JavaScript decide it: a
    [TypeError] is thrown before the session counters are touched, or
    after, or the lines complete and leave a value to be saved. *)
Inductive coerced : Type :=
  | throws_early
  | throws_late
  | completes (stats' : json).

(** Those coercions are not modelled; the development holds for whatever
    they do. *)
Variable coerced_update : json → string → string → bool → coerced.

(** Lines 321 to 344 on the value [loadStats] returned. *)
Definition update_stats (stats : json) (note fret : string)
    (isCorrect : bool) : coerced :=
  match stats with
  | JNull => throws_early (* [stats.totalAttempts++] on [null] *)
  | _ =>
      match decodeStats stats with
      | Some r => completes (encodeStats (recordAttempt r note fret isCorrect))
      | None => coerced_update stats note fret isCorrect
      end
  end.

(** [function handleGuess(note)] *)
Definition handleGuess (note : string) (w : state) : outcome :=
  if hasAnswered w then Returns w
  else
    let isCorrect := bool_decide (Some note = correctNote w) in
    let stats := loadStats (storage w) in
    let answered sc st ls ts lh aat btn :=
      {| currentPosition := currentPosition w;
         correctNote := correctNote w;
         hasAnswered := true;
         sessionCorrect := sc;
         sessionTotal := st;
         autoAdvanceTimeout := aat;
         settings := settings w;
         storage := ls;
         timers := ts;
         last_handle := lh;
         nextBtn_hidden := btn |} in
    let sc := if isCorrect then sessionCorrect w + 1 else sessionCorrect w in
    let st := sessionTotal w + 1 in
    match update_stats stats (prop_key (correctNote w))
            (num_key (pos_fret (currentPosition w))) isCorrect with
    | throws_early =>
        Throws (answered (sessionCorrect w) (sessionTotal w) (storage w)
                  (timers w) (last_handle w) (autoAdvanceTimeout w)
                  (nextBtn_hidden w))
    | throws_late =>
        Throws (answered sc st (storage w) (timers w) (last_handle w)
                  (autoAdvanceTimeout w) (nextBtn_hidden w))
    | completes stats' =>
        let ls := saveStats stats' (storage w) in
        if isCorrect then
          (* [autoAdvanceTimeout = setTimeout(newPosition, 800)] *)
          let h := S (last_handle w) in
          Returns (answered sc st ls
                     ({| handle := h; action := run_newPosition;
                         delay := 800 |} :: timers w)
                     h (Some h) (nextBtn_hidden w))
        else
          (* [nextBtn.classList.remove('hidden')] *)
          Returns (answered sc st ls (timers w) (last_handle w)
                     (autoAdvanceTimeout w) false)
    end.

End HandleGuess.

(** *** The other handlers *)

(** The state with [localStorage] replaced. *)
Definition with_storage (ls : localStorage) (w : state) : state :=
  {| currentPosition := currentPosition w;
     correctNote := correctNote w;
     hasAnswered := hasAnswered w;
     sessionCorrect := sessionCorrect w;
     sessionTotal := sessionTotal w;
     autoAdvanceTimeout := autoAdvanceTimeout w;
     settings := settings w;
     storage := ls;
     timers := timers w;
     last_handle := last_handle w;
     nextBtn_hidden := nextBtn_hidden w |}.

(** The state with [settings] replaced. *)
Definition with_settings (s : Settings) (w : state) : state :=
  {| currentPosition := currentPosition w;
     correctNote := correctNote w;
     hasAnswered := hasAnswered w;
     sessionCorrect := sessionCorrect w;
     sessionTotal := sessionTotal w;
     autoAdvanceTimeout := autoAdvanceTimeout w;
     settings := s;
     storage := storage w;
     timers := timers w;
     last_handle := last_handle w;
     nextBtn_hidden := nextBtn_hidden w |}.

(** An assignment to [settings] followed by [saveSettings()]. *)
Definition commit_settings (s : Settings) (w : state) : state :=
  with_storage (saveSettings s (storage w)) (with_settings s w).

(** The [keydown] handler of the document for Enter and the space bar:
    [newPosition] runs when the Next button is visible. *)
Definition advance_key (rs rf : draw) (w : state) : state :=
  if nextBtn_hidden w then w else newPosition rs rf w.

(** The host runs the callback of the pending timer [h]; a handle that is
    not pending runs nothing. *)
Definition timer_fires (h : nat) (rs rf : draw) (w : state) : state :=
  match list_find (λ t, handle t = h) (timers w) with
  | Some _ =>
      newPosition rs rf
        {| currentPosition := currentPosition w;
           correctNote := correctNote w;
           hasAnswered := hasAnswered w;
           sessionCorrect := sessionCorrect w;
           sessionTotal := sessionTotal w;
           autoAdvanceTimeout := autoAdvanceTimeout w;
           settings := settings w;
           storage := storage w;
           timers := clearTimeout h (timers w);
           last_handle := last_handle w;
           nextBtn_hidden := nextBtn_hidden w |}
  | None => w
  end.

(** The click handler of [resetStatsBtn]; [confirmed] is the answer to
    [confirm('Reset all progress data?')]. *)
Definition reset_stats_click (confirmed : bool) (w : state) : state :=
  if confirmed then
    {| currentPosition := currentPosition w;
       correctNote := correctNote w;
       hasAnswered := hasAnswered w;
       sessionCorrect := 0;
       sessionTotal := 0;
       autoAdvanceTimeout := autoAdvanceTimeout w;
       settings := settings w;
       storage := removeItem STORAGE_KEY (storage w);
       timers := timers w;
       last_handle := last_handle w;
       nextBtn_hidden := nextBtn_hidden w |}
  else w.

(** The click handlers of [#fret-toggles] and [#string-toggles]: a
    rejected click returns before [saveSettings()]. *)
Definition fret_toggle_click (i : nat) (w : state) : state :=
  let a := frets (settings w) in
  if toggle_rejected a i then w
  else commit_settings
         {| frets := toggle a i; strings := strings (settings w) |} w.

Definition string_toggle_click (i : nat) (w : state) : state :=
  let a := strings (settings w) in
  if toggle_rejected a i then w
  else commit_settings
         {| frets := frets (settings w); strings := toggle a i |} w.

(** [#frets-all], [#frets-none], [#strings-all], [#strings-none] *)
Definition frets_all_click (w : state) : state :=
  commit_settings
    {| frets := selectAll (frets (settings w));
       strings := strings (settings w) |} w.

Definition frets_none_click (w : state) : state :=
  commit_settings
    {| frets := selectNone (frets (settings w));
       strings := strings (settings w) |} w.

Definition strings_all_click (w : state) : state :=
  commit_settings
    {| frets := frets (settings w);
       strings := selectAll (strings (settings w)) |} w.

Definition strings_none_click (w : state) : state :=
  commit_settings
    {| frets := frets (settings w);
       strings := selectNone (strings (settings w)) |} w.

(** The click handler of [resetSettingsBtn]. *)
Definition reset_settings_click (confirmed : bool) (w : state) : state :=
  if confirmed then commit_settings default_settings w else w.

(** The module-level initialisers followed by [loadSettings()], the first
    call of [init()].  [ls] is what [localStorage] holds when the page
    loads. *)
Definition loaded (ls : localStorage) : state :=
  {| currentPosition := {| pos_string := Some 0%nat; pos_fret := Some 0%nat |};
     correctNote := Some "";
     hasAnswered := false;
     sessionCorrect := 0;
     sessionTotal := 0;
     autoAdvanceTimeout := None;
     settings := loadSettings ls default_settings;
     storage := ls;
     timers := [];
     last_handle := 0;
     nextBtn_hidden := true |}.

(** [init()] to its end: [newPosition()] after [loadSettings()]. *)
Definition page_load (ls : localStorage) (rs rf : draw) : state :=
  newPosition rs rf (loaded ls).

(** Every pending timer is the one [autoAdvanceTimeout] holds, none is
    pending while a guess is awaited, and a stored handle is positive. *)
Definition timers_tracked (w : state) : Prop :=
  (∀ t, t ∈ timers w → autoAdvanceTimeout w = Some (handle t))
  ∧ (hasAnswered w = false → timers w = [])
  ∧ autoAdvanceTimeout w ≠ Some 0%nat.

(** The round is answered, with no timer pending, and is the round of
    [w0]. *)
Definition answered_round (w0 w : state) : Prop :=
  hasAnswered w = true
  ∧ timers w = []
  ∧ currentPosition w = currentPosition w0
  ∧ correctNote w = correctNote w0.

(** *** Events *)

Inductive event : Type :=
  | Guess (note : string)
  | NextClick (rs rf : draw)
  | AdvanceKey (rs rf : draw)
  | TimerFires (h : nat) (rs rf : draw)
  | ResetStatsClick (confirmed : bool)
  | FretToggleClick (i : nat)
  | StringToggleClick (i : nat)
  | FretsAllClick
  | FretsNoneClick
  | StringsAllClick
  | StringsNoneClick
  | ResetSettingsClick (confirmed : bool).

Section Events.

Variable coerced_update : json → string → string → bool → coerced.

(** The handler an event runs and how it ends.  [handleGuess] is the one
    handler with a statement that can throw; the others return. *)
Definition handle_event (w : state) (e : event) : outcome :=
  match e with
  | Guess note => handleGuess coerced_update note w
  | NextClick rs rf => Returns (newPosition rs rf w)
  | AdvanceKey rs rf => Returns (advance_key rs rf w)
  | TimerFires h rs rf => Returns (timer_fires h rs rf w)
  | ResetStatsClick c => Returns (reset_stats_click c w)
  | FretToggleClick i => Returns (fret_toggle_click i w)
  | StringToggleClick i => Returns (string_toggle_click i w)
  | FretsAllClick => Returns (frets_all_click w)
  | FretsNoneClick => Returns (frets_none_click w)
  | StringsAllClick => Returns (strings_all_click w)
  | StringsNoneClick => Returns (strings_none_click w)
  | ResetSettingsClick c => Returns (reset_settings_click c w)
  end.

(** The state an event leaves behind; an exception that escapes a handler
    ends the handler, not the page. *)
Definition step (w : state) (e : event) : state := final (handle_event w e).

Definition run (w : state) (es : list event) : state := foldl step w es.

(** An explicit request for the next round: a click on the Next button or
    the advance key. *)
Definition explicit_advance (e : event) : bool :=
  match e with
  | NextClick _ _ | AdvanceKey _ _ => true
  | _ => false
  end.

End Events.

End Round.

(** ** Sample inputs *)

Module Samples.

Import SettingsStore StatsStore Round.

(** [Math.random()] returning one half. *)
Definition half : draw := {| num := 1; den := 2 |}.

(** A [localStorage] that holds neither key. *)
Definition empty_storage : localStorage :=
  {| stats_slot := Absent; settings_slot := Absent; quota_full := false |}.

(** Settings text with every fret switched off:
    [{"frets": [false, ... 13 times], "strings": [true, ... 6 times]}]. *)
Definition frets_off : json :=
  stringify_settings
    {| frets := replicate 13 (Some (JBool false)); strings := all_true 6 |}.

Definition storage_frets_off : localStorage :=
  {| stats_slot := Absent; settings_slot := Parsed frets_off;
     quota_full := false |}.

(** Statistics text [{}]. *)
Definition storage_stats_empty_object : localStorage :=
  {| stats_slot := Parsed (JObj ∅); settings_slot := Absent;
     quota_full := false |}.

(** Some behaviour of the coercions that are not modelled. *)
Definition some_coercions : json → string → string → bool → coerced :=
  λ _ _ _ _, throws_late.

End Samples.

(** ** The dot on the fretboard *)

Module Page.

Import SettingsStore Round.

(** The grid cell of the dot. *)
Record Cell : Type := {
  gridColumn : option nat;
  gridRow : option nat
}.

(** [function positionDot(stringIndex, fret)]: column [fret + 1], row
    [stringIndex + 2]; [undefined + 1] is [NaN]. *)
Definition positionDot (stringIndex fret : option nat) : Cell :=
  {| gridColumn := (λ f, f + 1)%nat <$> fret;
     gridRow := (λ s, s + 2)%nat <$> stringIndex |}.

(** The two stages of [valid_indices]: the callback of [map], with the
    indices counted from [k], and the callback of [filter] with the
    conversion of what it keeps. *)
Definition mark_from (k i : nat) (o : option json) : option Z :=
  match o with
  | Some v => Some (if truthy v then Z.of_nat (k + i) else -1)
  | None => None
  end.

Definition keep_marked (o : option Z) : option nat :=
  match o with
  | Some i => if 0 <=? i then Some (Z.to_nat i) else None
  | None => None
  end.

(** An array of [n] elements without hole. *)
Definition shaped (n : nat) (a : jsarray) : Prop :=
  length a = n ∧ Forall is_Some a.

(** The settings as the defaults and [loadSettings] shape them: 13 frets,
    6 strings, no hole. *)
Definition well_shaped (s : Settings) : Prop :=
  shaped 13 (frets s) ∧ shaped 6 (strings s).

(** A position on the fretboard: string below 6 and fret below 13, where
    defined. *)
Definition on_board (p : Position) : Prop :=
  (∀ s, pos_string p = Some s → (s < 6)%nat)
  ∧ (∀ f, pos_fret p = Some f → (f < 13)%nat).

(** The toggle buttons of the page carry the indices 0 to 12 (frets) and
    0 to 5 (strings). *)
Definition toggle_in_range (e : event) : bool :=
  match e with
  | FretToggleClick i => (i <? 13)%nat
  | StringToggleClick i => (i <? 6)%nat
  | _ => true
  end.

(** Writes succeed, the settings are well shaped, and a reload would give
    the settings in memory. *)
Definition reload_invariant (w : state) : Prop :=
  quota_full (storage w) = false
  ∧ well_shaped (settings w)
  ∧ settings (loaded (storage w)) = settings w.


(** The Next button is hidden while a guess is awaited. *)
Definition next_hidden_while_awaiting (w : state) : Prop :=
  hasAnswered w = false → nextBtn_hidden w = true.

(** The events that replace the question by design: a guess answers it, a
    click on Next asks for another. *)
Definition answers_or_skips (e : event) : bool :=
  match e with
  | Guess _ | NextClick _ _ => true
  | _ => false
  end.

(** The events that run a settings handler, and those that run a handler
    writing the statistics. *)
Definition settings_event (e : event) : bool :=
  match e with
  | FretToggleClick _ | StringToggleClick _ | FretsAllClick | FretsNoneClick
  | StringsAllClick | StringsNoneClick | ResetSettingsClick _ => true
  | _ => false
  end.

Definition stats_event (e : event) : bool :=
  match e with
  | Guess _ | ResetStatsClick _ => true
  | _ => false
  end.

End Page.

(** ** The earlier version of the round *)

Module Legacy.

Import PitchModel Round.

(** [function newPosition()] of the version without settings: the string
    is drawn among 6 and the fret among [FRET_COUNT]; the result is the
    position and [correctNote]. *)
Definition newPosition (rs rf : draw) : Position * option string :=
  let position :=
    {| pos_string := Some (floor_scaled rs 6);
       pos_fret := Some (floor_scaled rf FRET_COUNT) |} in
  (position,
   getNoteDisplayName
     (getNoteAtPosition (pos_string position) (pos_fret position))).

End Legacy.

(** ** Predicates on the statistics *)

Module StatsInvariants.

Import StatsStore Round.

(** The sum of the [correct] fields of a table. *)
Definition sum_corrects (m : gmap string Entry) : Z :=
  map_fold (λ _ e acc, correct e + acc) 0 m.

(** No entry has more right answers than attempts. *)
Definition entries_sound (m : gmap string Entry) : Prop :=
  ∀ k e, m !! k = Some e → 0 ≤ correct e ≤ total e.

Definition stats_sound (r : StatsRecord) : Prop :=
  0 ≤ totalCorrect r ≤ totalAttempts r
  ∧ entries_sound (noteStats r)
  ∧ entries_sound (fretStats r).

(** The totals of the record are the sums over each of its two tables. *)
Definition stats_balanced (r : StatsRecord) : Prop :=
  (totalAttempts r = sum_totals (noteStats r)
   ∧ totalAttempts r = sum_totals (fretStats r))
  ∧ (totalCorrect r = sum_corrects (noteStats r)
     ∧ totalCorrect r = sum_corrects (fretStats r)).

(** What [loadStats] would return is a well-formed record with the
    property [P]. *)
Definition stored_stats (P : StatsRecord → Prop) (ls : localStorage) : Prop :=
  ∃ r, decodeStats (loadStats ls) = Some r ∧ P r.

(** The stored record counts what the session counters count. *)
Definition session_matches_stats (w : state) : Prop :=
  stored_stats
    (λ r, totalAttempts r = sessionTotal w ∧ totalCorrect r = sessionCorrect w)
    (storage w).

End StatsInvariants.

(** * Properties *)

(** The side conditions of an attempt on concrete keys and counters. *)
Ltac exact_range :=
  unfold StatsStore.attempt_exact, StatsStore.attempt_room,
    StatsStore.note_key, StatsStore.fret_key, exact, room, MAX_EXACT;
  repeat match goal with
    | |- _ ∧ _ => split
    | |- _ ∈ _ ∨ _ =>
        first [ left; vm_compute; by repeat constructor
              | right; left; vm_compute; reflexivity
              | right; right; vm_compute; reflexivity ]
    | |- ∃ o : option nat, _ =>
        first [ exists (Some 0%nat); split; [vm_compute; reflexivity|]
              | exists (Some 6%nat); split; [vm_compute; reflexivity|]
              | exists None; split; [vm_compute; reflexivity|] ]
    | |- ∀ i, _ = Some i → _ => intros ? [= <-]; simpl; lia
    | |- ∀ i, None = Some i → _ => intros ? [=]
    | |- _ = true → _ => intros; first [discriminate | idtac]
    | |- _ ≤ _ < _ => vm_compute; split; [discriminate | reflexivity]
    | |- _ ≤ _ => vm_compute; discriminate
    | |- _ < _ => vm_compute; reflexivity
    end.

(** ** Pitch arithmetic *)

Section PitchFacts.

Import PitchModel.

(** Each of the twelve positions of [NOTES] holds a name that [indexOf]
    maps back to the position. *)
Lemma NOTES_position (k : nat) :
  (k < 12)%nat →
  ∃ note, NOTES !! k = Some note ∧ indexOf note NOTES = Z.of_nat k.
Proof.
  intros Hk.
  do 12 (destruct k as [|k]; [eexists; split; [reflexivity | reflexivity] |]).
  lia.
Qed.

(** The index table agrees with the tuning written in note names. *)
Lemma open_string_index (s : nat) :
  (s < 6)%nat →
  ∃ b, STRING_START_INDICES !! s = Some b
     ∧ openStringPitchClass s = Z.of_nat b.
Proof.
  intros Hs.
  do 6 (destruct s as [|s]; [eexists; split; reflexivity |]).
  lia.
Qed.

(** C5. For every string index in 0..5 and every fret in 0..12,
    [getNoteAtPosition] returns a note of [NOTES] whose pitch class (its
    position in [NOTES]) is the open string's pitch class in standard
    tuning plus the fret, modulo 12; and on either E string the display
    note is "E" at fret 0, "E" at fret 12 and "A" at fret 5. *)
Theorem getNoteAtPosition_pitch_class :
  (∀ s f : nat, (s < 6)%nat → (f ≤ 12)%nat →
     ∃ note, getNoteAtPosition (Some s) (Some f) = Some note
           ∧ indexOf note NOTES
             = (openStringPitchClass s + Z.of_nat f) `mod` 12)
  ∧ (∀ s, s = 0%nat ∨ s = 5%nat →
       STRING_NOTES !! s = Some "E"
     ∧ getNoteDisplayName (getNoteAtPosition (Some s) (Some 0%nat)) = Some "E"
     ∧ getNoteDisplayName (getNoteAtPosition (Some s) (Some 12%nat)) = Some "E"
     ∧ getNoteDisplayName (getNoteAtPosition (Some s) (Some 5%nat)) = Some "A").
Proof.
  split.
  - intros s f Hs _.
    destruct (open_string_index s Hs) as (b & Hb & Hopen).
    destruct (NOTES_position ((b + f) `mod` 12)%nat) as (note & Hn & Hi).
    { apply Nat.mod_upper_bound. lia. }
    exists note. split.
    + unfold getNoteAtPosition. simpl. rewrite Hb. exact Hn.
    + rewrite Hi, Hopen, Nat2Z.inj_mod, Nat2Z.inj_add. reflexivity.
  - intros s [-> | ->]; repeat split; reflexivity.
Qed.

Lemma getNoteAtPosition_pitch_class_witness :
  ∃ note, getNoteAtPosition (Some 3%nat) (Some 7%nat) = Some note
        ∧ indexOf note NOTES
          = (openStringPitchClass 3 + Z.of_nat 7) `mod` 12.
Proof.
  apply (proj1 getNoteAtPosition_pitch_class 3%nat 7%nat); lia.
Defined.

End PitchFacts.

(** ** Statistics *)

Section StatsFacts.

Import StatsStore.

(** [bump] writes one entry and nothing else. *)
Lemma bump_insert (c : bool) (k : string) (m : gmap string Entry) :
  bump c k m = <[k := credit c (entry_at k m)]> m.
Proof.
  apply map_eq. intros j. unfold bump, entry_at, credit.
  destruct (decide (k = j)) as [<- | Hne].
  - rewrite lookup_insert_eq.
    destruct (m !! k) as [e|] eqn:Hk; destruct c; simpl;
      repeat rewrite lookup_alter_eq; rewrite ?Hk, ?lookup_insert_eq;
      destruct e || idtac; reflexivity.
  - rewrite lookup_insert_ne by done.
    destruct (m !! k) as [e|] eqn:Hk; destruct c; simpl;
      repeat rewrite lookup_alter_ne by done;
      rewrite ?lookup_insert_ne by done; reflexivity.
Qed.

Lemma bump_lookup (c : bool) (k : string) (m : gmap string Entry) :
  bump c k m !! k = Some (credit c (entry_at k m)).
Proof. rewrite bump_insert. apply lookup_insert_eq. Qed.

Lemma bump_lookup_other (c : bool) (k j : string) (m : gmap string Entry) :
  j ≠ k → bump c k m !! j = m !! j.
Proof. intros Hne. rewrite bump_insert. by apply lookup_insert_ne. Qed.

Lemma sum_totals_fresh (k : string) (e : Entry) (m : gmap string Entry) :
  m !! k = None → sum_totals (<[k := e]> m) = total e + sum_totals m.
Proof.
  intros Hk. unfold sum_totals.
  apply (map_fold_insert_L (λ _ e acc, total e + acc)); [|done].
  intros. lia.
Qed.

Lemma sum_totals_lookup (k : string) (e : Entry) (m : gmap string Entry) :
  m !! k = Some e → sum_totals m = total e + sum_totals (delete k m).
Proof.
  intros Hk. unfold sum_totals.
  apply (map_fold_delete_L (λ _ e acc, total e + acc)); [|done].
  intros. lia.
Qed.

(** A [bump] adds one to the sum of the totals of its table. *)
Lemma sum_totals_bump (c : bool) (k : string) (m : gmap string Entry) :
  sum_totals (bump c k m) = sum_totals m + 1.
Proof.
  rewrite bump_insert. unfold entry_at.
  destruct (m !! k) as [e|] eqn:Hk; simpl.
  - rewrite <- insert_delete_eq.
    rewrite sum_totals_fresh by apply lookup_delete_eq.
    rewrite (sum_totals_lookup k e m Hk). simpl. lia.
  - rewrite sum_totals_fresh by done. simpl. lia.
Qed.

Lemma decodeEntry_encodeEntry (e : Entry) :
  decodeEntry (encodeEntry e) = Some e.
Proof.
  destruct e as [c t]. unfold decodeEntry, encodeEntry.
  cbn [correct total].
  rewrite lookup_insert_eq.
  rewrite lookup_insert_ne by done. rewrite lookup_insert_eq.
  rewrite map_size_insert_None by (rewrite lookup_insert_ne by done; apply lookup_empty).
  rewrite map_size_insert_None by apply lookup_empty.
  rewrite map_size_empty. reflexivity.
Qed.

Lemma decodeEntries_encode (m : gmap string Entry) :
  decodeEntries (encodeEntry <$> m) = Some m.
Proof.
  assert (Hm : omap decodeEntry (encodeEntry <$> m) = m).
  { apply map_eq. intros j. rewrite lookup_omap, lookup_fmap.
    destruct (m !! j); cbn [fmap option_fmap option_map mbind option_bind];
      [apply decodeEntry_encodeEntry | done]. }
  unfold decodeEntries. rewrite Hm, map_size_fmap.
  case_decide; done.
Qed.

(** What [encodeStats] writes, [decodeStats] reads back. *)
Lemma decodeStats_encodeStats (r : StatsRecord) :
  decodeStats (encodeStats r) = Some r.
Proof.
  destruct r as [tc ta ns fs]. unfold decodeStats, encodeStats.
  cbn [totalCorrect totalAttempts noteStats fretStats].
  repeat (rewrite lookup_insert_eq || rewrite lookup_insert_ne by done).
  rewrite !map_size_insert_None; rewrite ?map_size_empty;
    try (repeat (rewrite lookup_insert_ne by done); apply lookup_empty).
  rewrite !decodeEntries_encode. reflexivity.
Qed.

(** Every display note and every fret number has an entry in the record
    of [createEmptyStats], and every entry is [{0, 0}]. *)
Lemma createEmptyStats_seeded :
  (∀ note, note ∈ PitchModel.NOTE_DISPLAY →
     noteStats createEmptyStats !! note = Some zero)
  ∧ (∀ i : nat, (i < PitchModel.FRET_COUNT)%nat →
       fretStats createEmptyStats !! num_key (Some i) = Some zero)
  ∧ size (noteStats createEmptyStats) = 12%nat
  ∧ size (fretStats createEmptyStats) = 13%nat.
Proof.
  split; [|split; [|split]].
  - intros note Hn. unfold PitchModel.NOTE_DISPLAY in Hn.
    repeat (apply elem_of_cons in Hn as [-> | Hn]; [vm_compute; reflexivity |]).
    by apply elem_of_nil in Hn.
  - intros i Hi. unfold PitchModel.FRET_COUNT in Hi.
    do 13 (destruct i as [|i]; [vm_compute; reflexivity |]). lia.
  - vm_compute. reflexivity.
  - vm_compute. reflexivity.
Qed.

(** Every entry of the record of [createEmptyStats] is [{0, 0}]. *)
Lemma seeded_entries_zero {A : Type} (key : A → string) (l : list A)
    (m : gmap string Entry) :
  (∀ k x, m !! k = Some x → x = zero) →
  ∀ k x, foldl (λ m a, <[key a := zero]> m) m l !! k = Some x → x = zero.
Proof.
  revert m. induction l as [|a l IH]; intros m Hm; [exact Hm|].
  apply IH. intros k x. destruct (decide (key a = k)) as [<- | Hne].
  - rewrite lookup_insert_eq. by intros [= <-].
  - rewrite lookup_insert_ne by done. apply Hm.
Qed.

Lemma has_room_empty (k : nat) :
  Z.of_nat k ≤ MAX_EXACT → has_room k createEmptyStats.
Proof.
  intros Hk.
  assert (room k 0) as H0 by (unfold room, MAX_EXACT in *; lia).
  assert (∀ j (x : Entry), (∅ : gmap string Entry) !! j = Some x → x = zero)
    as Hempty by (intros j x Hj; by rewrite lookup_empty in Hj).
  split; [exact Hk|]. split; [exact H0|]. split; [exact H0|]. split.
  - intros j x Hj. apply (seeded_entries_zero id _ _ Hempty) in Hj as ->.
    by split.
  - intros j x Hj. apply (seeded_entries_zero pretty _ _ Hempty) in Hj as ->.
    by split.
Qed.

Lemma attempts_keep_sum (l : list (string * string * bool)) (r : StatsRecord) :
  totalAttempts r = sum_totals (fretStats r) →
  totalAttempts (attempts_from r l) = sum_totals (fretStats (attempts_from r l)).
Proof.
  revert r. induction l as [|a l IH]; intros r Hr; [exact Hr|].
  apply IH. cbn [recordAttempt totalAttempts fretStats].
  rewrite sum_totals_bump. lia.
Qed.

End StatsFacts.

(** ** Settings *)

Section SettingsFacts.

Import SettingsStore.

Implicit Types (a : jsarray) (i j : nat) (v : json).

Lemma activeCount_cons (o : option json) a :
  activeCount (o :: a) = ((if enabled o then 1 else 0) + activeCount a)%nat.
Proof.
  unfold activeCount. rewrite filter_cons.
  destruct (enabled o); case_decide; simpl in *; done.
Qed.

Lemma has_enabled_count a : has_enabled a ↔ (1 ≤ activeCount a)%nat.
Proof.
  induction a as [|o a IH].
  - split; [intros [i Hi]; unfold read_truthy in Hi; by rewrite lookup_nil in Hi
           | unfold activeCount; simpl; lia].
  - rewrite activeCount_cons. split.
    + intros [[|i] Hi]; unfold read_truthy in Hi; simpl in Hi.
      * rewrite Hi. lia.
      * assert (has_enabled a) as Ha by (exists i; exact Hi).
        apply IH in Ha. lia.
    + destruct (enabled o) eqn:Ho; intros Hc.
      * exists 0%nat. exact Ho.
      * destruct (proj2 IH) as [i Hi]; [lia|]. exists (S i). exact Hi.
Qed.

(** Two enabled elements or more: one of them is not at [i]. *)
Lemma another_enabled a i :
  read_truthy a i = true → (2 ≤ activeCount a)%nat →
  ∃ j, j ≠ i ∧ read_truthy a j = true.
Proof.
  revert i. induction a as [|o a IH]; intros i Hi Hc.
  - unfold read_truthy in Hi. by rewrite lookup_nil in Hi.
  - rewrite activeCount_cons in Hc. destruct i as [|i].
    + unfold read_truthy in Hi. simpl in Hi. rewrite Hi in Hc.
      destruct (proj2 (has_enabled_count a)) as [j Hj]; [lia|].
      exists (S j). split; [lia | exact Hj].
    + destruct (enabled o) eqn:Ho.
      * exists 0%nat. split; [lia | exact Ho].
      * destruct (IH i Hi) as (j & Hne & Hj); [lia|].
        exists (S j). split; [lia | exact Hj].
Qed.

Lemma read_array_set_eq a i v : read_truthy (array_set a i v) i = truthy v.
Proof.
  unfold read_truthy, array_set. case_decide as Hlt.
  - by rewrite list_lookup_insert_eq.
  - rewrite lookup_app_r by lia.
    rewrite lookup_app_r by (rewrite length_replicate; lia).
    rewrite length_replicate, Nat.sub_diag. reflexivity.
Qed.

Lemma read_array_set_ne a i j v :
  j ≠ i → read_truthy (array_set a i v) j = read_truthy a j.
Proof.
  intros Hne. unfold read_truthy, array_set. case_decide as Hlt.
  - by rewrite list_lookup_insert_ne.
  - destruct (decide (j < length a)%nat) as [Hj | Hj].
    + by rewrite lookup_app_l.
    + rewrite (lookup_ge_None_2 a j) by lia.
      rewrite lookup_app_r by lia.
      destruct (decide (j - length a < i - length a)%nat) as [Hin | Hout].
      * rewrite lookup_app_l by (rewrite length_replicate; lia).
        by rewrite lookup_replicate_2.
      * rewrite lookup_app_r by (rewrite length_replicate; lia).
        rewrite length_replicate.
        destruct (j - length a - (i - length a))%nat as [|k] eqn:Hk; [lia|].
        reflexivity.
Qed.

Lemma anchored_array_set a i v : anchored a → anchored (array_set a i v).
Proof.
  intros [x Hx]. unfold anchored, array_set.
  assert (0 < length a)%nat as Hlen by (by apply lookup_lt_Some in Hx).
  case_decide as Hlt.
  - destruct i as [|i].
    + exists v. by rewrite list_lookup_insert_eq.
    + exists x. by rewrite list_lookup_insert_ne.
  - exists x. by rewrite lookup_app_l.
Qed.

Lemma lookup_map_index (f : nat → json) a i :
  map_index f a !! i
  = (λ o, match o with Some _ => Some (f i) | None => None end) <$> a !! i.
Proof. unfold map_index. by rewrite list_lookup_imap. Qed.

Lemma anchored_map_index (f : nat → json) a :
  anchored a → anchored (map_index f a).
Proof.
  intros [x Hx]. exists (f 0%nat). by rewrite lookup_map_index, Hx.
Qed.

(** A click on a toggle keeps an enabled element. *)
Lemma toggle_has_enabled a i : has_enabled a → has_enabled (toggle a i).
Proof.
  intros Ha. unfold toggle, toggle_rejected.
  destruct (read_truthy a i) eqn:Hi; simpl.
  - destruct (activeCount a <=? 1)%nat eqn:Hc; [exact Ha|].
    apply Nat.leb_gt in Hc.
    destruct (another_enabled a i Hi) as (j & Hne & Hj); [lia|].
    exists j. by rewrite read_array_set_ne.
  - exists i. by rewrite read_array_set_eq.
Qed.

Lemma toggle_anchored a i : anchored a → anchored (toggle a i).
Proof.
  intros Ha. unfold toggle. destruct (toggle_rejected a i); [exact Ha|].
  by apply anchored_array_set.
Qed.

Lemma selectAll_has_enabled a : has_enabled a → has_enabled (selectAll a).
Proof.
  intros [i Hi]. exists i. unfold read_truthy, selectAll in *.
  rewrite lookup_map_index.
  destruct (a !! i) as [[x|]|]; simpl in *; done.
Qed.

Lemma selectNone_has_enabled a : anchored a → has_enabled (selectNone a).
Proof.
  intros [x Hx]. exists 0%nat. unfold read_truthy, selectNone.
  by rewrite lookup_map_index, Hx.
Qed.

Lemma all_true_ok (n : nat) :
  has_enabled (all_true (S n)) ∧ anchored (all_true (S n)).
Proof. split; [by exists 0%nat | by exists (JBool true)]. Qed.

Lemma default_settings_ok : settings_ok default_settings.
Proof. split; apply all_true_ok. Qed.

(** A stored array that [loadSettings] accepts and that has a truthy
    element gives an array satisfying the invariant. *)
Lemma load_field_ok (m : gmap string json) (f : string) (n : nat) a :
  (∀ l, m !! f = Some (JArr l) → ∃ v, v ∈ l ∧ truthy v = true) →
  has_enabled a ∧ anchored a →
  has_enabled (load_field m f (S n) a) ∧ anchored (load_field m f (S n) a).
Proof.
  intros Hstored Ha. unfold load_field.
  destruct (m !! f) as [[| | | |l|]|]; try exact Ha.
  case_decide as Hlen; [|exact Ha].
  destruct (Hstored l eq_refl) as (v & Hv & Ht). split.
  - apply list_elem_of_lookup in Hv as [i Hi]. exists i.
    unfold read_truthy. rewrite list_lookup_fmap, Hi. exact Ht.
  - destruct l as [|x l]; [done|]. by exists x.
Qed.

(** One field of [loadSettings]: the invariant is kept exactly when the
    stored array, if it is accepted, has a truthy element. *)
Lemma load_field_ok_iff (m : gmap string json) (f : string) (n : nat) a :
  has_enabled a ∧ anchored a →
  (has_enabled (load_field m f (S n) a) ∧ anchored (load_field m f (S n) a))
  ↔ (∀ l, m !! f = Some (JArr l) → length l = S n →
          ∃ v, v ∈ l ∧ truthy v = true).
Proof.
  intros Ha. unfold load_field.
  destruct (m !! f) as [[| | | |l|]|]; try (split; [intros _ l H; discriminate H | intros _; exact Ha]).
  case_decide as Hlen.
  - split.
    + intros [[i Hi] _] l' [= <-] _. unfold read_truthy in Hi.
      rewrite list_lookup_fmap in Hi.
      destruct (l !! i) as [v|] eqn:Hv; [|discriminate Hi].
      exists v. split; [|exact Hi]. apply list_elem_of_lookup. eauto.
    + intros Hstored. destruct (Hstored l eq_refl Hlen) as (v & Hv & Ht).
      split.
      * apply list_elem_of_lookup in Hv as [i Hi]. exists i.
        unfold read_truthy. rewrite list_lookup_fmap, Hi. exact Ht.
      * destruct l as [|x l]; [done|]. by exists x.
  - split; [intros _ l' [= <-] Hl; by destruct Hlen | intros _; exact Ha].
Qed.

(** An array that [loadSettings] accepts has 13 or 6 elements and no
    hole, so index 0 is never lost. *)
Lemma load_field_anchored (m : gmap string json) (f : string) (n : nat) a :
  anchored a → anchored (load_field m f (S n) a).
Proof.
  intros Ha. unfold load_field.
  destruct (m !! f) as [[| | | |l|]|]; try exact Ha.
  case_decide as Hlen; [|exact Ha].
  destruct l as [|x l]; [done|]. by exists x.
Qed.

Lemma loadSettings_anchored (ls : localStorage) (s : Settings) :
  anchored (frets s) → anchored (strings s) →
  anchored (frets (loadSettings ls s)) ∧ anchored (strings (loadSettings ls s)).
Proof.
  intros Hf Hs. unfold loadSettings.
  destruct (getItem SETTINGS_KEY ls) as [| | |[| | | | |m]]; try done.
  split; by apply load_field_anchored.
Qed.

End SettingsFacts.

(** ** The round *)

Section RoundFacts.

Import PitchModel SettingsStore StatsStore Round Samples.

Implicit Types (a : jsarray) (w : state) (rs rf : draw).

(** *** Valid indices *)

(** [valid_indices] with the indices counted from [k]. *)
Lemma valid_indices_from (k : nat) a (j : nat) :
  j ∈ omap (λ o : option Z, match o with
              | Some i => if 0 <=? i then Some (Z.to_nat i) else None
              | None => None
              end)
        (imap (λ i o, match o with
                 | Some v => Some (if truthy v then Z.of_nat (k + i) else -1)
                 | None => None
                 end) a)
  ↔ ∃ i, j = (k + i)%nat ∧ read_truthy a i = true.
Proof.
  revert k. induction a as [|o a IH]; intros k.
  - simpl. split; [by intros ?%elem_of_nil|].
    intros (i & _ & Hi). unfold read_truthy in Hi. by rewrite lookup_nil in Hi.
  - rewrite imap_cons. cbn [omap list_omap].
    assert (Htail : ∀ l,
      j ∈ l ++ omap (λ o : option Z, match o with
              | Some i => if 0 <=? i then Some (Z.to_nat i) else None
              | None => None
              end)
        (imap ((λ i o, match o with
                 | Some v => Some (if truthy v then Z.of_nat (k + i) else -1)
                 | None => None
                 end) ∘ S) a)
      ↔ j ∈ l ∨ ∃ i, j = (k + S i)%nat ∧ read_truthy a i = true).
    { intros l. rewrite elem_of_app.
      assert (imap ((λ i o, match o with
                 | Some v => Some (if truthy v then Z.of_nat (k + i) else -1)
                 | None => None
                 end) ∘ S) a
              = imap (λ i o, match o with
                 | Some v => Some (if truthy v then Z.of_nat (S k + i) else -1)
                 | None => None
                 end) a) as ->.
      { apply imap_ext. intros i x _. simpl.
        by replace (k + S i)%nat with (S (k + i))%nat by lia. }
      rewrite IH. split; (intros [?|(i & -> & Hi)]; [by left|right]);
        exists i; (split; [lia | done]). }
    destruct o as [v|]; [destruct (truthy v) eqn:Hv|].
    + replace (0 <=? Z.of_nat (k + 0)) with true by (symmetry; apply Z.leb_le; lia).
      rewrite Nat2Z.id.
      rewrite (Htail [(k + 0)%nat]). split.
      * intros [->%list_elem_of_singleton | (i & -> & Hi)].
        -- exists 0%nat. done.
        -- exists (S i). done.
      * intros ([|i] & -> & Hi); [left; by apply list_elem_of_singleton|].
        right. by exists i.
    + cbn [Z.leb Z.compare]. rewrite (Htail []). split.
      * intros [?%elem_of_nil | (i & -> & Hi)]; [done|]. by exists (S i).
      * intros ([|i] & -> & Hi).
        -- unfold read_truthy in Hi. simpl in Hi. congruence.
        -- right. by exists i.
    + rewrite (Htail []). split.
      * intros [?%elem_of_nil | (i & -> & Hi)]; [done|]. by exists (S i).
      * intros ([|i] & -> & Hi); [done|]. right. by exists i.
Qed.

(** The valid indices are the indices that read as enabled. *)
Lemma elem_of_valid_indices a (j : nat) :
  j ∈ valid_indices a ↔ read_truthy a j = true.
Proof.
  unfold valid_indices.
  rewrite (valid_indices_from 0%nat a j). split.
  - by intros (i & -> & Hi).
  - intros Hj. by exists j.
Qed.

Lemma valid_indices_nil a : valid_indices a = [] ↔ ¬ has_enabled a.
Proof.
  split.
  - intros Hnil [i Hi]. apply elem_of_valid_indices in Hi.
    rewrite Hnil in Hi. by apply elem_of_nil in Hi.
  - intros Hno. destruct (valid_indices a) as [|j l] eqn:Hv; [done|].
    exfalso. apply Hno. exists j. apply elem_of_valid_indices.
    rewrite Hv. by left.
Qed.

(** *** Random draws *)

Lemma floor_scaled_lt (r : draw) (n : nat) :
  in_unit_interval r → (0 < n)%nat → (floor_scaled r n < n)%nat.
Proof.
  unfold in_unit_interval, floor_scaled. intros Hr Hn.
  apply Nat.Div0.div_lt_upper_bound. nia.
Qed.

Lemma floor_scaled_zero (r : draw) : floor_scaled r 0 = 0%nat.
Proof. unfold floor_scaled. rewrite Nat.mul_0_r. apply Nat.Div0.div_0_l. Qed.

(** A draw from a non-empty list of valid indices is one of them. *)
Lemma drawn_index_enabled a (r : draw) :
  in_unit_interval r → has_enabled a →
  ∃ j, valid_indices a !! floor_scaled r (length (valid_indices a)) = Some j
     ∧ read_truthy a j = true.
Proof.
  intros Hr Ha.
  destruct (valid_indices a) as [|j0 l] eqn:Hv.
  { exfalso. by apply (proj1 (valid_indices_nil a)). }
  destruct (lookup_lt_is_Some_2 (j0 :: l) (floor_scaled r (length (j0 :: l))))
    as [j Hj].
  { apply floor_scaled_lt; [done | simpl; lia]. }
  exists j. split; [done|].
  apply elem_of_valid_indices. rewrite Hv.
  apply list_elem_of_lookup. eauto.
Qed.


(** *** [newPosition] *)

Lemma settings_cancel_auto_advance w :
  settings (cancel_auto_advance w) = settings w.
Proof. unfold cancel_auto_advance. by destruct (autoAdvanceTimeout w) as [[|h]|]. Qed.

Lemma settings_newPosition rs rf w : settings (newPosition rs rf w) = settings w.
Proof. apply settings_cancel_auto_advance. Qed.

(** C6. With an enabled fret and an enabled string in the settings, and
    whatever the two random draws are, [newPosition] sets a position whose
    fret and string are both enabled in the settings, and leaves the
    settings as they are; when fret 0 is the only enabled fret, the fret
    of the position is 0. *)
Theorem newPosition_within_settings :
  (∀ rs rf w,
     in_unit_interval rs → in_unit_interval rf →
     has_enabled (frets (settings w)) → has_enabled (strings (settings w)) →
     ∃ s f,
       currentPosition (newPosition rs rf w)
       = {| pos_string := Some s; pos_fret := Some f |}
       ∧ read_truthy (strings (settings w)) s = true
       ∧ read_truthy (frets (settings w)) f = true
       ∧ settings (newPosition rs rf w) = settings w)
  ∧ (∀ rs rf w,
       in_unit_interval rf →
       (∀ i, read_truthy (frets (settings w)) i = true ↔ i = 0%nat) →
       pos_fret (currentPosition (newPosition rs rf w)) = Some 0%nat).
Proof.
  split.
  - intros rs rf w Hrs Hrf Hf Hs.
    destruct (drawn_index_enabled _ rs Hrs Hs) as (s & Hsl & Hse).
    destruct (drawn_index_enabled _ rf Hrf Hf) as (f & Hfl & Hfe).
    exists s, f. unfold newPosition. cbn [currentPosition settings].
    rewrite settings_cancel_auto_advance, Hsl, Hfl. done.
  - intros rs rf w Hrf Honly.
    destruct (drawn_index_enabled (frets (settings w)) rf Hrf) as (f & Hfl & Hfe).
    { exists 0%nat. by apply Honly. }
    unfold newPosition. cbn [currentPosition pos_fret].
    rewrite settings_cancel_auto_advance, Hfl.
    f_equal. by apply Honly.
Qed.


Lemma newPosition_within_settings_witness :
  ∃ s f,
    currentPosition (newPosition half half (loaded empty_storage))
    = {| pos_string := Some s; pos_fret := Some f |}
    ∧ read_truthy (strings (settings (loaded empty_storage))) s = true
    ∧ read_truthy (frets (settings (loaded empty_storage))) f = true
    ∧ settings (newPosition half half (loaded empty_storage))
      = settings (loaded empty_storage).
Proof.
  apply (proj1 newPosition_within_settings half half (loaded empty_storage)).
  - unfold in_unit_interval. simpl. lia.
  - unfold in_unit_interval. simpl. lia.
  - exists 0%nat. reflexivity.
  - exists 0%nat. reflexivity.
Defined.

Lemma correctNote_undefined_string (fret : option nat) :
  getNoteDisplayName (getNoteAtPosition None fret) = None.
Proof. reflexivity. Qed.

Lemma correctNote_undefined_fret (stringIndex : option nat) :
  getNoteDisplayName (getNoteAtPosition stringIndex None) = None.
Proof.
  unfold getNoteAtPosition.
  by destruct (stringIndex ≫= λ s, STRING_START_INDICES !! s).
Qed.

(** C1, as the code has it. [newPosition] has no failing path: whatever the
    settings, the handler that calls it returns, with [hasAnswered] false;
    when no fret is enabled the fret of the position and [correctNote] are
    [undefined], and when no string is enabled the string of the position
    and [correctNote] are [undefined]. *)
Theorem newPosition_never_fails
    (coerced_update : json → string → string → bool → coerced) rs rf w :
  handle_event coerced_update w (NextClick rs rf) = Returns (newPosition rs rf w)
  ∧ hasAnswered (newPosition rs rf w) = false
  ∧ (valid_indices (frets (settings w)) = [] →
       pos_fret (currentPosition (newPosition rs rf w)) = None
       ∧ correctNote (newPosition rs rf w) = None)
  ∧ (valid_indices (strings (settings w)) = [] →
       pos_string (currentPosition (newPosition rs rf w)) = None
       ∧ correctNote (newPosition rs rf w) = None).
Proof.
  split; [reflexivity|]. split; [reflexivity|].
  unfold newPosition.
  cbn [currentPosition correctNote pos_fret pos_string].
  rewrite settings_cancel_auto_advance.
  split; intros ->; cbn [length]; rewrite floor_scaled_zero, lookup_nil.
  - split; [reflexivity | apply correctNote_undefined_fret].
  - split; [reflexivity | apply correctNote_undefined_string].
Qed.

Lemma newPosition_never_fails_witness :
  pos_fret (currentPosition (newPosition half half (loaded storage_frets_off)))
  = None
  ∧ correctNote (newPosition half half (loaded storage_frets_off)) = None.
Proof.
  destruct (newPosition_never_fails some_coercions half half
              (loaded storage_frets_off)) as (_ & _ & Hfrets & _).
  apply Hfrets. vm_compute. reflexivity.
Defined.

(** C1, refuted as stated: with every fret switched off in the settings,
    [newPosition] does not fail; it returns with the fret of the position
    [undefined]. *)
Lemma newPosition_frets_off_returns :
  valid_indices (frets (settings (loaded storage_frets_off))) = []
  ∧ (∀ w', handle_event some_coercions (loaded storage_frets_off)
             (NextClick half half) ≠ Throws w')
  ∧ ∃ w', handle_event some_coercions (loaded storage_frets_off)
            (NextClick half half) = Returns w'
        ∧ pos_fret (currentPosition w') = None.
Proof.
  split; [vm_compute; reflexivity|]. split.
  - intros w' H. discriminate H.
  - eexists. split; [reflexivity|]. vm_compute. reflexivity.
Qed.


(** *** [handleGuess] *)

Section Guessing.

Variable coerced_update : json → string → string → bool → coerced.

Lemma hasAnswered_handleGuess (note : string) w :
  hasAnswered (final (handleGuess coerced_update note w)) = true.
Proof.
  unfold handleGuess. destruct (hasAnswered w) eqn:Hw; [exact Hw|].
  destruct (update_stats _ _ _ _ _); [done | done |].
  by destruct (bool_decide _).
Qed.

(** On a value of the shape [encodeStats] writes, lines 321 to 344 are
    [recordAttempt]. *)
Lemma update_stats_decoded (stats : json) (r : StatsRecord)
    (note fret : string) (isCorrect : bool) :
  decodeStats stats = Some r →
  update_stats coerced_update stats note fret isCorrect
  = completes (encodeStats (recordAttempt r note fret isCorrect)).
Proof.
  intros Hr. unfold update_stats. rewrite Hr. by destruct stats.
Qed.

(** What [loadStats] returns for a key that is absent, empty or does not
    parse decodes to the record of [createEmptyStats]. *)
Lemma loadStats_default (ls : localStorage) :
  (∀ v, stats_slot ls ≠ Parsed v) →
  loadStats ls = encodeStats createEmptyStats.
Proof.
  intros Hs. unfold loadStats, getItem.
  destruct (stats_slot ls) as [| | |v]; try reflexivity. by destruct (Hs v).
Qed.

(** Stored text [null]: [stats.totalAttempts++] throws on the first guess
    of a round, before the session counters, the statistics and the timer
    are touched; the round is left answered. *)
Lemma handleGuess_null_stats_throws (note : string) w :
  hasAnswered w = false →
  stats_slot (storage w) = Parsed JNull →
  ∃ w', handleGuess coerced_update note w = Throws w'
      ∧ hasAnswered w' = true
      ∧ sessionTotal w' = sessionTotal w
      ∧ storage w' = storage w
      ∧ timers w' = timers w
      ∧ autoAdvanceTimeout w' = autoAdvanceTimeout w.
Proof.
  intros Hw Hnull. unfold handleGuess, loadStats, getItem.
  rewrite Hw, Hnull. cbn [update_stats]. eexists. split; [reflexivity|done].
Qed.

(** C2. When a guess has already been received, [handleGuess] returns at
    once with the state as it was; so the second of two guesses in a row
    changes nothing: the statistics in [localStorage] and the session
    counters are those the first guess left. *)
Theorem handleGuess_second_guess :
  (∀ note w, hasAnswered w = true →
     handleGuess coerced_update note w = Returns w)
  ∧ (∀ note1 note2 w,
       let w1 := final (handleGuess coerced_update note1 w) in
       handleGuess coerced_update note2 w1 = Returns w1).
Proof.
  assert (∀ note w, hasAnswered w = true →
            handleGuess coerced_update note w = Returns w) as Hnoop.
  { intros note w Hw. unfold handleGuess. by rewrite Hw. }
  split; [exact Hnoop|].
  intros note1 note2 w w1. apply Hnoop. apply hasAnswered_handleGuess.
Qed.

(** C10. A guess on a well-formed record, in a round whose note and fret
    are keys of the page and whose counters are in the range where [++]
    is exact: the entry of
    [noteStats] that gains an attempt is the one under [correctNote];
    every other entry, the one under a different guessed note included,
    is as it was. *)
Theorem handleGuess_note_entry (note : string) w (r : StatsRecord) :
  hasAnswered w = false →
  decodeStats (loadStats (storage w)) = Some r →
  quota_full (storage w) = false →
  attempt_exact r (prop_key (correctNote w))
    (num_key (pos_fret (currentPosition w)))
    (bool_decide (Some note = correctNote w)) →
  ∃ w' r',
    handleGuess coerced_update note w = Returns w'
    ∧ stats_slot (storage w') = Parsed (encodeStats r')
    ∧ total (entry_at (prop_key (correctNote w)) (noteStats r'))
      = total (entry_at (prop_key (correctNote w)) (noteStats r)) + 1
    ∧ (∀ k, k ≠ prop_key (correctNote w) →
         noteStats r' !! k = noteStats r !! k)
    ∧ (∀ c, correctNote w = Some c → note ≠ c →
         noteStats r' !! note = noteStats r !! note).
Proof.
  intros Hw Hr Hq _.
  set (isCorrect := bool_decide (Some note = correctNote w)).
  set (r' := recordAttempt r (prop_key (correctNote w))
               (num_key (pos_fret (currentPosition w))) isCorrect).
  assert (∀ ls', storage w = ls' → stats_slot (saveStats (encodeStats r') ls')
                 = Parsed (encodeStats r')) as Hsave.
  { intros ls' <-. unfold saveStats, setItem. by rewrite Hq. }
  assert (∃ w', handleGuess coerced_update note w = Returns w'
              ∧ stats_slot (storage w') = Parsed (encodeStats r'))
    as (w' & Hw' & Hslot).
  { unfold handleGuess. rewrite Hw.
    rewrite (update_stats_decoded _ r) by exact Hr.
    fold isCorrect. fold r'.
    destruct isCorrect; eexists; (split; [reflexivity|]);
      cbn [storage]; by apply Hsave. }
  exists w', r'. split; [exact Hw'|]. split; [exact Hslot|].
  subst r'. cbn [recordAttempt noteStats].
  split; [|split].
  - unfold entry_at at 1. rewrite bump_lookup. reflexivity.
  - intros k Hk. by apply bump_lookup_other.
  - intros c Hc Hne. apply bump_lookup_other. rewrite Hc. exact Hne.
Qed.

End Guessing.

Lemma handleGuess_second_guess_witness :
  handleGuess some_coercions "A"
    (final (handleGuess some_coercions "B" (page_load empty_storage half half)))
  = Returns
      (final (handleGuess some_coercions "B" (page_load empty_storage half half))).
Proof.
  apply (proj1 (handleGuess_second_guess some_coercions)).
  vm_compute. reflexivity.
Defined.

Lemma handleGuess_note_entry_witness :
  ∃ w' r',
    handleGuess some_coercions "A" (page_load empty_storage half half)
    = Returns w'
    ∧ stats_slot (storage w') = Parsed (encodeStats r')
    ∧ noteStats r' !! "A" = Some zero.
Proof.
  destruct (handleGuess_note_entry some_coercions "A"
              (page_load empty_storage half half) createEmptyStats)
    as (w' & r' & Hret & Hslot & _ & _ & Hother).
  - reflexivity.
  - apply decodeStats_encodeStats.
  - reflexivity.
  - exact_range.
  - exists w', r'. split; [exact Hret|]. split; [exact Hslot|].
    rewrite (Hother "G#/Ab"); [| vm_compute; reflexivity | discriminate].
    vm_compute. reflexivity.
Defined.


(** *** Loading and resetting the statistics *)

(** C8, as the code has it. [loadStats] is total, so nothing escapes it.
    For a key that is absent, empty or does not parse it returns the record
    of [createEmptyStats], in which each of the 12 display notes and of the
    13 frets has the entry [{0, 0}]; for text that parses it returns the
    parsed value as it is, whatever its shape. *)
Theorem loadStats_parse_or_default :
  (∀ ls, (∀ v, stats_slot ls ≠ Parsed v) →
     loadStats ls = encodeStats createEmptyStats)
  ∧ (∀ ls v, stats_slot ls = Parsed v → loadStats ls = v)
  ∧ decodeStats (encodeStats createEmptyStats) = Some createEmptyStats
  ∧ (∀ note, note ∈ NOTE_DISPLAY →
       noteStats createEmptyStats !! note = Some zero)
  ∧ (∀ i : nat, (i < FRET_COUNT)%nat →
       fretStats createEmptyStats !! num_key (Some i) = Some zero)
  ∧ size (noteStats createEmptyStats) = 12%nat
  ∧ size (fretStats createEmptyStats) = 13%nat.
Proof.
  split; [exact loadStats_default|].
  split; [intros ls v Hv; unfold loadStats, getItem; by rewrite Hv|].
  split; [apply decodeStats_encodeStats|].
  exact createEmptyStats_seeded.
Qed.

Lemma loadStats_parse_or_default_witness :
  loadStats empty_storage = encodeStats createEmptyStats
  ∧ loadStats storage_stats_empty_object = JObj ∅.
Proof.
  split.
  - apply (proj1 loadStats_parse_or_default). intros v H. discriminate H.
  - apply (proj1 (proj2 loadStats_parse_or_default)). reflexivity.
Defined.

(** C8, refuted as stated: when the key holds the text [{}], [loadStats]
    returns the empty object, which is the encoding of no record: no
    field has been given a default. *)
Lemma loadStats_empty_object_not_a_record :
  loadStats storage_stats_empty_object = JObj ∅
  ∧ decodeStats (loadStats storage_stats_empty_object) = None
  ∧ ∀ r, loadStats storage_stats_empty_object ≠ encodeStats r.
Proof.
  split; [reflexivity|]. split; [reflexivity|].
  intros r Hr. pose proof (decodeStats_encodeStats r) as Hd.
  rewrite <- Hr in Hd. discriminate Hd.
Qed.

(** C7, as the code has it. A confirmed reset removes the statistics key,
    so that the next [loadStats] gives the record of [createEmptyStats],
    and sets both session counters to 0; the settings, in memory and in
    [localStorage], and the round are as they were.  A reset that is not
    confirmed changes nothing. *)
Theorem reset_stats_click_effect w :
  let w' := reset_stats_click true w in
  stats_slot (storage w') = Absent
  ∧ loadStats (storage w') = encodeStats createEmptyStats
  ∧ sessionCorrect w' = 0
  ∧ sessionTotal w' = 0
  ∧ settings w' = settings w
  ∧ settings_slot (storage w') = settings_slot (storage w)
  ∧ currentPosition w' = currentPosition w
  ∧ correctNote w' = correctNote w
  ∧ hasAnswered w' = hasAnswered w
  ∧ timers w' = timers w
  ∧ reset_stats_click false w = w.
Proof. cbn. repeat split; reflexivity. Qed.

(** C7, refuted as stated: after one guess the session total is 1, and a
    confirmed reset of the statistics brings it to 0. *)
Lemma reset_stats_click_clears_session :
  let w := final (handleGuess some_coercions "A"
                    (page_load empty_storage half half)) in
  sessionTotal w = 1
  ∧ sessionTotal (reset_stats_click true w) = 0
  ∧ sessionTotal (reset_stats_click true w) ≠ sessionTotal w.
Proof. vm_compute. repeat split; discriminate. Qed.


(** *** The statistics along a run *)

Lemma loadStats_saveSettings (st : Settings) (ls : localStorage) :
  loadStats (saveSettings st ls) = loadStats ls.
Proof. unfold saveSettings, setItem. by destruct (quota_full ls). Qed.

Lemma storage_newPosition rs rf w : storage (newPosition rs rf w) = storage w.
Proof.
  unfold newPosition, cancel_auto_advance. cbn [storage].
  by destruct (autoAdvanceTimeout w) as [[|h]|].
Qed.

Lemma stats_consistent_saveStats (r : StatsRecord) (ls : localStorage) :
  totalAttempts r = sum_totals (fretStats r) →
  stats_consistent ls →
  stats_consistent (saveStats (encodeStats r) ls).
Proof.
  intros Hr Hls. unfold saveStats, setItem.
  destruct (quota_full ls); [exact Hls|].
  exists r. split; [apply decodeStats_encodeStats | exact Hr].
Qed.

Section StatsInvariant.

Variable coerced_update : json → string → string → bool → coerced.

Lemma stats_consistent_handleGuess (note : string) w :
  stats_consistent (storage w) →
  stats_consistent (storage (final (handleGuess coerced_update note w))).
Proof.
  intros Hw. unfold handleGuess. destruct (hasAnswered w); [exact Hw|].
  destruct Hw as (r & Hr & Hsum).
  rewrite (update_stats_decoded _ _ r) by exact Hr.
  assert (stats_consistent (storage w)) as Hw by (exists r; done).
  destruct (bool_decide _); cbn [final storage];
    (apply stats_consistent_saveStats; [|exact Hw]);
    cbn [recordAttempt totalAttempts fretStats];
    rewrite sum_totals_bump; lia.
Qed.

Lemma stats_consistent_step w (e : event) :
  stats_consistent (storage w) →
  stats_consistent (storage (step coerced_update w e)).
Proof.
  intros Hw.
  assert (∀ st, stats_consistent (storage (commit_settings st w))) as Hcommit.
  { intros st. destruct Hw as (r & Hr & Hsum). exists r.
    cbn [commit_settings with_storage with_settings storage].
    by rewrite loadStats_saveSettings. }
  destruct e as [note|rs rf|rs rf|h rs rf|c|i|i| | | | |c];
    unfold step; cbn [handle_event final].
  - by apply stats_consistent_handleGuess.
  - by rewrite storage_newPosition.
  - unfold advance_key. destruct (nextBtn_hidden w); [done|].
    by rewrite storage_newPosition.
  - unfold timer_fires. destruct (list_find _ _); [|done].
    by rewrite storage_newPosition.
  - destruct c; [|done]. exists createEmptyStats.
    split; [apply decodeStats_encodeStats | vm_compute; reflexivity].
  - unfold fret_toggle_click. by destruct (toggle_rejected _ _).
  - unfold string_toggle_click. by destruct (toggle_rejected _ _).
  - apply Hcommit.
  - apply Hcommit.
  - apply Hcommit.
  - apply Hcommit.
  - destruct c; [apply Hcommit | done].
Qed.

Lemma stats_consistent_run (es : list event) w :
  stats_consistent (storage w) →
  stats_consistent (storage (run coerced_update w es)).
Proof.
  revert w. induction es as [|e es IH]; intros w Hw; [exact Hw|].
  apply IH. by apply stats_consistent_step.
Qed.

(** C3. One [recordAttempt] at a note and a fret of the page, on counters
    in the range where [++] is exact, adds exactly one to [totalAttempts],
    to the [total] of the entry under the note and to the [total] of the
    entry under the fret, and one to [totalCorrect] and to the two
    [correct] fields exactly when the guess was right, and [handleGuess]
    applies it to the record it loads; after any list of at most 2^53 such
    attempts on the record of [createEmptyStats], [totalAttempts] is the
    sum of the [total] fields of [fretStats], and so it is for the stored
    record in every state the page reaches, by events on its buttons, from
    stored statistics of which it holds and whose counters leave room for
    as many attempts as there are events; a right then a wrong attempt at
    note "A", fret 0 leave [noteStats["A"]] at [{correct: 1, total: 2}],
    [totalAttempts] at 2 and [totalCorrect] at 1. *)
Theorem recordAttempt_counts :
  (∀ r note fret isCorrect,
     attempt_exact r note fret isCorrect →
     let r' := recordAttempt r note fret isCorrect in
     let one := if isCorrect then 1 else 0 in
       totalAttempts r' = totalAttempts r + 1
     ∧ totalCorrect r' = totalCorrect r + one
     ∧ noteStats r' !! note =
         Some {| correct := correct (entry_at note (noteStats r)) + one;
                 total := total (entry_at note (noteStats r)) + 1 |}
     ∧ fretStats r' !! fret =
         Some {| correct := correct (entry_at fret (fretStats r)) + one;
                 total := total (entry_at fret (fretStats r)) + 1 |}
     ∧ (∀ k, k ≠ note → noteStats r' !! k = noteStats r !! k)
     ∧ (∀ k, k ≠ fret → fretStats r' !! k = fretStats r !! k))
  ∧ (∀ stats r note fret isCorrect,
       decodeStats stats = Some r →
       attempt_exact r note fret isCorrect →
       update_stats coerced_update stats note fret isCorrect
       = completes (encodeStats (recordAttempt r note fret isCorrect)))
  ∧ (∀ l, Z.of_nat (length l) ≤ MAX_EXACT →
          Forall (λ x : string * string * bool,
                    note_key x.1.1 ∧ fret_key x.1.2) l →
          totalAttempts (attempts_from createEmptyStats l)
          = sum_totals (fretStats (attempts_from createEmptyStats l)))
  ∧ (∀ ls rs rf es,
       forallb Page.toggle_in_range es = true →
       stats_consistent_for (length es) ls →
       stats_consistent
         (storage (run coerced_update (page_load ls rs rf) es)))
  ∧ (let rec :=
       recordAttempt
         (recordAttempt createEmptyStats "A" (num_key (Some 0%nat)) true)
         "A" (num_key (Some 0%nat)) false in
       noteStats rec !! "A" = Some {| correct := 1; total := 2 |}
     ∧ totalAttempts rec = 2
     ∧ totalCorrect rec = 1).
Proof.
  split; [|split; [|split; [|split]]].
  - intros r note fret c _. cbn zeta.
    cbn [recordAttempt totalAttempts totalCorrect noteStats fretStats].
    rewrite !bump_lookup. unfold credit.
    repeat split.
    + destruct c; lia.
    + destruct c; repeat f_equal; lia.
    + destruct c; repeat f_equal; lia.
    + intros k Hk. by apply bump_lookup_other.
    + intros k Hk. by apply bump_lookup_other.
  - intros stats r note fret c Hr _. by apply update_stats_decoded.
  - intros l _ _. apply attempts_keep_sum. vm_compute. reflexivity.
  - intros ls rs rf es _ (r & Hr & Hsum & _). apply stats_consistent_run.
    unfold page_load. rewrite storage_newPosition. by exists r.
  - vm_compute. repeat split; reflexivity.
Qed.

End StatsInvariant.

Lemma recordAttempt_counts_witness :
  stats_consistent
    (storage (run some_coercions (page_load empty_storage half half)
                [Guess "A"; NextClick half half; Guess "G#/Ab"]))
  ∧ noteStats (recordAttempt createEmptyStats "A" "0" true) !! "B"
    = noteStats createEmptyStats !! "B".
Proof.
  destruct (recordAttempt_counts some_coercions)
    as (Hone & _ & _ & Hrun & _).
  split.
  - apply Hrun; [reflexivity|]. exists createEmptyStats.
    split; [apply decodeStats_encodeStats|].
    split; [vm_compute; reflexivity|].
    apply has_room_empty. unfold MAX_EXACT. simpl. lia.
  - destruct (Hone createEmptyStats "A" "0" true)
      as (_ & _ & _ & _ & Hother & _).
    + exact_range.
    + apply Hother. discriminate.
Defined.

(** *** Timers *)

Lemma cancel_auto_advance_clears w :
  timers_tracked w →
  timers (cancel_auto_advance w) = []
  ∧ autoAdvanceTimeout (cancel_auto_advance w) = None.
Proof.
  intros (Htr & _ & Hpos). unfold cancel_auto_advance.
  destruct (autoAdvanceTimeout w) as [[|h]|] eqn:Ha; [done| |].
  - cbn [timers autoAdvanceTimeout]. split; [|done].
    destruct (clearTimeout (S h) (timers w)) as [|t l] eqn:Hf; [done|].
    assert (t ∈ clearTimeout (S h) (timers w)) as Ht by (rewrite Hf; by left).
    apply list_elem_of_filter in Ht as [Hne Ht].
    apply Htr in Ht. congruence.
  - split; [|done].
    destruct (timers w) as [|t l] eqn:Ht; [done|].
    discriminate (Htr t). by left.
Qed.

Lemma newPosition_clears rs rf w :
  timers_tracked w →
  timers (newPosition rs rf w) = []
  ∧ autoAdvanceTimeout (newPosition rs rf w) = None.
Proof. intros Hw. by apply cancel_auto_advance_clears. Qed.

Lemma timers_tracked_newPosition rs rf w :
  timers_tracked w → timers_tracked (newPosition rs rf w).
Proof.
  intros Hw. destruct (newPosition_clears rs rf w Hw) as [Ht Ha].
  unfold timers_tracked. rewrite Ht, Ha.
  split; [by intros t ?%elem_of_nil | done].
Qed.

Lemma timers_tracked_timer_fires (h : nat) rs rf w :
  timers_tracked w → timers_tracked (timer_fires h rs rf w).
Proof.
  intros Hw. unfold timer_fires.
  destruct (list_find _ _); [|exact Hw].
  apply timers_tracked_newPosition.
  destruct Hw as (Htr & Hnone & Hpos).
  unfold timers_tracked. cbn [timers autoAdvanceTimeout hasAnswered].
  split; [|split; [|exact Hpos]].
  - intros t Ht. apply list_elem_of_filter in Ht as [_ Ht]. by apply Htr.
  - intros Hans. by rewrite (Hnone Hans).
Qed.

Section Policy.

Variable coerced_update : json → string → string → bool → coerced.

Lemma timers_tracked_handleGuess (note : string) w :
  timers_tracked w →
  timers_tracked (final (handleGuess coerced_update note w)).
Proof.
  intros Hw. unfold handleGuess.
  destruct (hasAnswered w) eqn:Hans; [exact Hw|].
  destruct Hw as (Htr & Hnone & Hpos). specialize (Hnone Hans).
  destruct (update_stats _ _ _ _ _); [| |destruct (bool_decide _)];
    unfold timers_tracked;
    cbn [final timers autoAdvanceTimeout hasAnswered];
    rewrite ?Hnone; (split; [|split; [done|]]); try done.
  - by intros t ?%elem_of_nil.
  - by intros t ?%elem_of_nil.
  - by intros t ->%list_elem_of_singleton.
  - by intros t ?%elem_of_nil.
Qed.

Lemma timers_tracked_step w (e : event) :
  timers_tracked w → timers_tracked (step coerced_update w e).
Proof.
  intros Hw. destruct e as [note|rs rf|rs rf|h rs rf|c|i|i| | | | |c];
    unfold step; cbn [handle_event final].
  - by apply timers_tracked_handleGuess.
  - by apply timers_tracked_newPosition.
  - unfold advance_key. destruct (nextBtn_hidden w); [done|].
    by apply timers_tracked_newPosition.
  - by apply timers_tracked_timer_fires.
  - by destruct c.
  - unfold fret_toggle_click. by destruct (toggle_rejected _ _).
  - unfold string_toggle_click. by destruct (toggle_rejected _ _).
  - done.
  - done.
  - done.
  - done.
  - by destruct c.
Qed.

Lemma timers_tracked_run (es : list event) w :
  timers_tracked w → timers_tracked (run coerced_update w es).
Proof.
  revert w. induction es as [|e es IH]; intros w Hw; [exact Hw|].
  apply IH. by apply timers_tracked_step.
Qed.

Lemma timers_tracked_page_load (ls : localStorage) rs rf :
  timers_tracked (page_load ls rs rf).
Proof.
  apply timers_tracked_newPosition.
  split; [by intros t ?%elem_of_nil | done].
Qed.

(** An answered round with no timer pending stays as it is under every
    event but an explicit advance. *)
Lemma answered_round_step w0 w (e : event) :
  explicit_advance e = false →
  answered_round w0 w → answered_round w0 (step coerced_update w e).
Proof.
  intros He (Hans & Ht & Hp & Hc).
  destruct e as [note|rs rf|rs rf|h rs rf|c|i|i| | | | |c];
    try discriminate He; unfold step; cbn [handle_event final].
  - unfold handleGuess. by rewrite Hans.
  - unfold timer_fires. by rewrite Ht.
  - by destruct c.
  - unfold fret_toggle_click. by destruct (toggle_rejected _ _).
  - unfold string_toggle_click. by destruct (toggle_rejected _ _).
  - done.
  - done.
  - done.
  - done.
  - by destruct c.
Qed.

Lemma answered_round_run w0 (es : list event) w :
  forallb (λ e, negb (explicit_advance e)) es = true →
  answered_round w0 w → answered_round w0 (run coerced_update w es).
Proof.
  revert w. induction es as [|e es IH]; intros w Hes Hw; [exact Hw|].
  simpl in Hes. apply andb_prop in Hes as [He Hes].
  apply IH; [exact Hes|]. apply answered_round_step; [|exact Hw].
  by destruct (explicit_advance e).
Qed.

(** C9. In every state the page reaches, the pending timers are tracked by
    [autoAdvanceTimeout].  In such a state awaiting a guess: a correct
    guess whose handler completes leaves exactly one pending timer, which
    runs [newPosition] after 800, its handle stored in
    [autoAdvanceTimeout], and the handler does complete when the stored
    statistics are a well-formed record; an incorrect guess leaves no
    timer pending, and the round then stays answered, position and
    [correctNote] unchanged, under every sequence of events without a click
    on Next or the advance key.  Every [newPosition] leaves no timer
    pending and [autoAdvanceTimeout] null. *)
Theorem auto_advance_policy :
  (∀ ls rs rf es,
     timers_tracked (run coerced_update (page_load ls rs rf) es))
  ∧ (∀ note w,
       timers_tracked w → hasAnswered w = false →
       (∀ w', handleGuess coerced_update note w = Returns w' →
              Some note = correctNote w →
              ∃ h, h ≠ 0%nat
                 ∧ autoAdvanceTimeout w' = Some h
                 ∧ timers w' = [{| handle := h; action := run_newPosition;
                                   delay := 800 |}])
       ∧ (∀ r, decodeStats (loadStats (storage w)) = Some r →
               ∃ w', handleGuess coerced_update note w = Returns w')
       ∧ (Some note ≠ correctNote w →
            let w' := final (handleGuess coerced_update note w) in
            answered_round w w'
            ∧ ∀ es, forallb (λ e, negb (explicit_advance e)) es = true →
                    answered_round w (run coerced_update w' es)))
  ∧ (∀ rs rf w,
       timers_tracked w →
       timers (newPosition rs rf w) = []
       ∧ autoAdvanceTimeout (newPosition rs rf w) = None).
Proof.
  split; [|split].
  - intros ls rs rf es. apply timers_tracked_run, timers_tracked_page_load.
  - intros note w (Htr & Hnone & Hpos) Hans. specialize (Hnone Hans).
    split; [|split].
    + intros w' Hret Hcorrect. unfold handleGuess in Hret.
      rewrite Hans, (bool_decide_eq_true_2 _ Hcorrect) in Hret.
      destruct (update_stats _ _ _ _ _); try discriminate Hret.
      injection Hret as <-. exists (S (last_handle w)).
      cbn [autoAdvanceTimeout timers]. by rewrite Hnone.
    + intros r Hr. unfold handleGuess. rewrite Hans.
      rewrite (update_stats_decoded _ _ r) by exact Hr.
      destruct (bool_decide _); eauto.
    + intros Hwrong w'.
      assert (answered_round w w') as Hw'.
      { subst w'. unfold handleGuess.
        rewrite Hans, (bool_decide_eq_false_2 _ Hwrong).
        by destruct (update_stats _ _ _ _ _). }
      split; [exact Hw'|]. intros es Hes. by apply answered_round_run.
  - intros rs rf w Hw. by apply newPosition_clears.
Qed.

End Policy.

Lemma auto_advance_policy_witness :
  ∃ h, h ≠ 0%nat
     ∧ autoAdvanceTimeout
         (final (handleGuess some_coercions "G#/Ab"
                   (page_load empty_storage half half))) = Some h
     ∧ timers
         (final (handleGuess some_coercions "G#/Ab"
                   (page_load empty_storage half half)))
       = [{| handle := h; action := run_newPosition; delay := 800 |}].
Proof.
  destruct (auto_advance_policy some_coercions) as (Hreach & Hguess & _).
  destruct (Hguess "G#/Ab" (page_load empty_storage half half)) as (Hok & _).
  - apply (Hreach empty_storage half half []).
  - reflexivity.
  - apply Hok; vm_compute; reflexivity.
Defined.


(** *** The settings along a run *)

Section SettingsInvariant.

Variable coerced_update : json → string → string → bool → coerced.

Lemma settings_handleGuess (note : string) w :
  settings (final (handleGuess coerced_update note w)) = settings w.
Proof.
  unfold handleGuess. destruct (hasAnswered w); [done|].
  destruct (update_stats _ _ _ _ _); [done | done |].
  by destruct (bool_decide _).
Qed.

Lemma settings_ok_step w (e : event) :
  settings_ok (settings w) → settings_ok (settings (step coerced_update w e)).
Proof.
  intros Hw. pose proof Hw as [[Hf Hf0] [Hs Hs0]].
  destruct e as [note|rs rf|rs rf|h rs rf|c|i|i| | | | |c];
    unfold step; cbn [handle_event final].
  - by rewrite settings_handleGuess.
  - by rewrite settings_newPosition.
  - unfold advance_key. destruct (nextBtn_hidden w); [done|].
    by rewrite settings_newPosition.
  - unfold timer_fires. destruct (list_find _ _); [|done].
    by rewrite settings_newPosition.
  - by destruct c.
  - unfold fret_toggle_click. destruct (toggle_rejected _ _); [done|].
    split; [split|done]; [by apply toggle_has_enabled | by apply toggle_anchored].
  - unfold string_toggle_click. destruct (toggle_rejected _ _); [done|].
    split; [done|split]; [by apply toggle_has_enabled | by apply toggle_anchored].
  - split; [split|done];
      [by apply selectAll_has_enabled | by apply anchored_map_index].
  - split; [split|done];
      [by apply selectNone_has_enabled | by apply anchored_map_index].
  - split; [done|split];
      [by apply selectAll_has_enabled | by apply anchored_map_index].
  - split; [done|split];
      [by apply selectNone_has_enabled | by apply anchored_map_index].
  - destruct c; [apply default_settings_ok | done].
Qed.

Lemma settings_ok_run (es : list event) w :
  settings_ok (settings w) → settings_ok (settings (run coerced_update w es)).
Proof.
  revert w. induction es as [|e es IH]; intros w Hw; [exact Hw|].
  apply IH. by apply settings_ok_step.
Qed.

(** C4, as the code has it. The default settings have an enabled fret and
    an enabled string, and every handler keeps that: from settings that
    have one of each, every sequence of events leads to settings that have
    one of each.  [loadSettings] checks the shape of the stored arrays and
    not their content: it keeps the property exactly when each stored
    array it accepts has a truthy element, and it always keeps an element
    at index 0.  A click on the toggle of the last
    enabled fret, or string, is rejected and leaves the state as it was. *)
Theorem settings_keep_an_enabled_entry :
  settings_ok default_settings
  ∧ (∀ s, settings_ok s →
       (1 ≤ activeCount (frets s))%nat ∧ (1 ≤ activeCount (strings s))%nat)
  ∧ (∀ w es, settings_ok (settings w) →
       settings_ok (settings (run coerced_update w es)))
  ∧ (∀ ls s, settings_ok s →
       (settings_ok (loadSettings ls s)
        ↔ (∀ l, accepted_array ls "frets" 13 = Some l →
                ∃ v, v ∈ l ∧ truthy v = true)
          ∧ (∀ l, accepted_array ls "strings" 6 = Some l →
                  ∃ v, v ∈ l ∧ truthy v = true)))
  ∧ (∀ ls s, anchored (frets s) → anchored (strings s) →
       anchored (frets (loadSettings ls s))
       ∧ anchored (strings (loadSettings ls s)))
  ∧ (∀ i w, read_truthy (frets (settings w)) i = true →
       (activeCount (frets (settings w)) ≤ 1)%nat →
       fret_toggle_click i w = w)
  ∧ (∀ i w, read_truthy (strings (settings w)) i = true →
       (activeCount (strings (settings w)) ≤ 1)%nat →
       string_toggle_click i w = w).
Proof.
  split; [apply default_settings_ok|].
  split; [intros s [[Hf _] [Hs _]]; split; by apply has_enabled_count|].
  split; [intros w es; apply settings_ok_run|].
  split; [|split; [apply loadSettings_anchored|split]].
  - intros ls s [Hf Hs]. unfold loadSettings, accepted_array, getItem.
    destruct (settings_slot ls) as [| | |[| | | | |m]] eqn:Hslot;
      try (split; [intros _; split; intros ? H; discriminate H
                  | intros _; by split]).
    unfold settings_ok. cbn [frets strings].
    rewrite (load_field_ok_iff m "frets" 12 _ Hf).
    rewrite (load_field_ok_iff m "strings" 5 _ Hs).
    assert (∀ (f : string) (n : nat),
              (∀ l, m !! f = Some (JArr l) → length l = n →
                    ∃ v, v ∈ l ∧ truthy v = true)
              ↔ (∀ l, match m !! f with
                      | Some (JArr l0) =>
                          if decide (length l0 = n) then Some l0 else None
                      | _ => None
                      end = Some l → ∃ v, v ∈ l ∧ truthy v = true)) as Hacc.
    { intros f n. destruct (m !! f) as [[| | | |l0|]|];
        try (split; intros _ l H; discriminate H).
      split.
      - intros H l Hl. case_decide as Hlen; [|discriminate Hl].
        injection Hl as <-. by apply H.
      - intros H l [= <-] Hlen. apply H. by rewrite decide_True. }
    by rewrite !Hacc.
  - intros i w Hi Hc. unfold fret_toggle_click, toggle_rejected.
    rewrite Hi. by rewrite (proj2 (Nat.leb_le _ _) Hc).
  - intros i w Hi Hc. unfold string_toggle_click, toggle_rejected.
    rewrite Hi. by rewrite (proj2 (Nat.leb_le _ _) Hc).
Qed.

End SettingsInvariant.

Lemma settings_keep_an_enabled_entry_witness :
  settings_ok
    (settings (run some_coercions (page_load empty_storage half half)
                 [FretsNoneClick; FretToggleClick 0; StringsNoneClick;
                  FretToggleClick 3; FretToggleClick 0]))
  ∧ fret_toggle_click 0
      (run some_coercions (page_load empty_storage half half) [FretsNoneClick])
    = run some_coercions (page_load empty_storage half half) [FretsNoneClick].
Proof.
  destruct (settings_keep_an_enabled_entry some_coercions)
    as (Hdef & _ & Hrun & _ & _ & Hfret & _).
  split.
  - apply Hrun. exact Hdef.
  - apply Hfret; vm_compute; [reflexivity | lia].
Defined.

(** C4, refuted as stated: [loadSettings] accepts a stored array of 13
    [false], after which no fret is enabled. *)
Lemma loadSettings_accepts_all_false :
  frets (loadSettings storage_frets_off default_settings)
  = replicate 13 (Some (JBool false))
  ∧ activeCount (frets (loadSettings storage_frets_off default_settings)) = 0%nat
  ∧ ¬ has_enabled (frets (loadSettings storage_frets_off default_settings)).
Proof.
  split; [vm_compute; reflexivity|]. split; [vm_compute; reflexivity|].
  intros H%has_enabled_count. vm_compute in H. lia.
Qed.

End RoundFacts.

(** * Further properties *)

Section FurtherFacts.

Import PitchModel SettingsStore StatsStore Round Page StatsInvariants Samples.

Implicit Types (a : jsarray) (w : state) (rs rf : draw) (e : event).

(** ** Notes *)

Section NoteFacts.


Lemma note_in_range (s f : nat) :
  (s < 6)%nat →
  ∃ note, getNoteAtPosition (Some s) (Some f) = Some note ∧ note ∈ NOTES.
Proof.
  intros Hs. destruct (open_string_index s Hs) as (b & Hb & _).
  destruct (NOTES_position ((b + f) `mod` 12)%nat) as (note & Hn & _).
  { apply Nat.mod_upper_bound. lia. }
  exists note. split.
  - unfold getNoteAtPosition. simpl. rewrite Hb. exact Hn.
  - apply list_elem_of_lookup. eauto.
Qed.

(** X1. For frets in the range where the sum with the open string is
    exact, twelve frets up the same string the note is the same, whatever
    the string, and a string index from 0 to 5 gives a note of [NOTES];
    a string index from 6 on gives no note. *)
Theorem getNoteAtPosition_octave :
  (∀ s f, Z.of_nat f + 23 ≤ MAX_EXACT →
     getNoteAtPosition (Some s) (Some (f + 12)%nat)
     = getNoteAtPosition (Some s) (Some f))
  ∧ (∀ s f, (s < 6)%nat → Z.of_nat f + 11 ≤ MAX_EXACT →
       ∃ note, getNoteAtPosition (Some s) (Some f) = Some note ∧ note ∈ NOTES)
  ∧ (∀ s f, (6 ≤ s)%nat → getNoteAtPosition (Some s) f = None).
Proof.
  split; [|split].
  - intros s f _. unfold getNoteAtPosition. cbn [mbind option_bind].
    destruct (STRING_START_INDICES !! s) as [b|]; [|reflexivity].
    f_equal. rewrite <- (Nat.Div0.mod_add (b + f) 1 12).
    f_equal. lia.
  - intros s f Hs _. by apply note_in_range.
  - intros s f Hs. unfold getNoteAtPosition. simpl.
    rewrite (lookup_ge_None_2 STRING_START_INDICES s); [done|].
    simpl. lia.
Qed.

Lemma getNoteAtPosition_octave_witness :
  getNoteAtPosition (Some 1%nat) (Some (7 + 12)%nat)
  = getNoteAtPosition (Some 1%nat) (Some 7%nat)
  ∧ (∃ note, getNoteAtPosition (Some 2%nat) (Some 30%nat) = Some note
           ∧ note ∈ NOTES)
  ∧ getNoteAtPosition (Some 6%nat) (Some 0%nat) = None.
Proof.
  destruct getNoteAtPosition_octave as (Hoct & Hin & Hout).
  split; [|split].
  - apply Hoct. unfold MAX_EXACT. lia.
  - apply Hin; [lia | unfold MAX_EXACT; lia].
  - apply Hout. lia.
Defined.

(** Tries the notes of a list, one after the other, as the note with a
    given label. *)
Ltac find_note notes :=
  let notes := eval unfold NOTES in notes in
  match notes with
  | ?n :: ?rest =>
      first [ exists n; split; [set_solver | reflexivity] | find_note rest ]
  end.

Lemma display_label (n : string) :
  n ∈ NOTES → ∃ d, getNoteDisplayName (Some n) = Some d ∧ d ∈ NOTE_DISPLAY.
Proof.
  intros Hn. unfold NOTES in Hn.
  repeat (apply elem_of_cons in Hn as [-> | Hn];
          [eexists; split; [reflexivity | set_solver] |]).
  by apply elem_of_nil in Hn.
Qed.

(** X2. [getNoteDisplayName] gives every note of [NOTES] a label of
    [NOTE_DISPLAY], gives different notes different labels, and reaches
    every label of [NOTE_DISPLAY]; for [undefined] it gives [undefined]. *)
Theorem getNoteDisplayName_bijective :
  (∀ n, n ∈ NOTES →
     ∃ d, getNoteDisplayName (Some n) = Some d ∧ d ∈ NOTE_DISPLAY)
  ∧ (∀ n1 n2, n1 ∈ NOTES → n2 ∈ NOTES →
       getNoteDisplayName (Some n1) = getNoteDisplayName (Some n2) → n1 = n2)
  ∧ (∀ d, d ∈ NOTE_DISPLAY →
       ∃ n, n ∈ NOTES ∧ getNoteDisplayName (Some n) = Some d)
  ∧ getNoteDisplayName None = None.
Proof.
  split; [|split; [|split]].
  - exact display_label.
  - intros n1 n2 H1 H2. unfold NOTES in H1, H2.
    repeat (apply elem_of_cons in H1 as [-> | H1];
            [repeat (apply elem_of_cons in H2 as [-> | H2];
                     [intros H; first [reflexivity | discriminate H] |]);
             by apply elem_of_nil in H2 |]).
    by apply elem_of_nil in H1.
  - intros d Hd. unfold NOTE_DISPLAY in Hd.
    repeat (apply elem_of_cons in Hd as [-> | Hd]; [find_note NOTES |]).
    by apply elem_of_nil in Hd.
  - reflexivity.
Qed.

Lemma getNoteDisplayName_bijective_witness :
  ∃ d, getNoteDisplayName (Some "F#") = Some d ∧ d ∈ NOTE_DISPLAY.
Proof.
  apply (proj1 getNoteDisplayName_bijective). set_solver.
Defined.

End NoteFacts.

(** ** Positions *)

Section PositionFacts.



Lemma valid_index_lt a (j : nat) : j ∈ valid_indices a → (j < length a)%nat.
Proof.
  intros Hj%elem_of_valid_indices. unfold read_truthy in Hj.
  destruct (a !! j) eqn:Ha; [|done]. by apply lookup_lt_Some in Ha.
Qed.

Lemma drawn_index_lt a (k j : nat) :
  valid_indices a !! k = Some j → (j < length a)%nat.
Proof.
  intros Hk. apply valid_index_lt, list_elem_of_lookup. eauto.
Qed.

Lemma valid_indices_marked a :
  valid_indices a = omap keep_marked (imap (mark_from 0) a).
Proof. reflexivity. Qed.

Lemma mark_from_S (k : nat) a :
  imap (mark_from k ∘ S) a = imap (mark_from (S k)) a.
Proof.
  apply imap_ext. intros i x _. unfold mark_from. simpl.
  by replace (k + S i)%nat with (S (k + i))%nat by lia.
Qed.

Lemma keep_mark (k i : nat) (o : option json) :
  keep_marked (mark_from k i o) = if enabled o then Some (k + i)%nat else None.
Proof.
  destruct o as [v|]; [|done]. unfold mark_from, keep_marked, enabled.
  destruct (truthy v); [|done].
  replace (0 <=? Z.of_nat (k + i)) with true by (symmetry; apply Z.leb_le; lia).
  by rewrite Nat2Z.id.
Qed.

(** The valid indices of an array read from index [k] on are those read
    from index 0 on, shifted by [k]. *)
Lemma marked_shift (k : nat) a :
  omap keep_marked (imap (mark_from k) a)
  = (λ j, k + j)%nat <$> omap keep_marked (imap (mark_from 0) a).
Proof.
  revert k. induction a as [|o a IH]; intros k; [done|].
  rewrite !imap_cons, !mark_from_S. cbn [omap list_omap].
  rewrite !keep_mark, (IH (S k)), (IH 1%nat).
  assert ((λ j, k + j)%nat <$>
            ((λ j, 1 + j)%nat <$> omap keep_marked (imap (mark_from 0) a))
          = (λ j, S k + j)%nat <$> omap keep_marked (imap (mark_from 0) a))
    as Hcomp.
  { rewrite <- list_fmap_compose. apply list_fmap_ext. intros _ j _. simpl. lia. }
  destruct (enabled o).
  - rewrite fmap_cons, Hcomp. f_equal.
  - by rewrite Hcomp.
Qed.

(** The valid indices, one element of the array at a time. *)
Lemma valid_indices_cons (o : option json) a :
  valid_indices (o :: a)
  = (if enabled o then [0%nat] else []) ++ (S <$> valid_indices a).
Proof.
  rewrite !valid_indices_marked, imap_cons, mark_from_S.
  cbn [omap list_omap]. rewrite keep_mark, (marked_shift 1 a).
  by destruct (enabled o).
Qed.

(** When every element is enabled, the valid indices are all the indices,
    in order. *)
Lemma valid_indices_all_from (k : nat) a :
  Forall (λ o, enabled o = true) a →
  omap (λ o : option Z, match o with
          | Some i => if 0 <=? i then Some (Z.to_nat i) else None
          | None => None
          end)
    (imap (λ i o, match o with
             | Some v => Some (if truthy v then Z.of_nat (k + i) else -1)
             | None => None
             end) a)
  = seq k (length a).
Proof.
  revert k. induction a as [|o a IH]; intros k Ha; [reflexivity|].
  apply Forall_cons in Ha as [Ho Ha].
  rewrite imap_cons. cbn [omap list_omap length seq].
  destruct o as [v|]; [|discriminate Ho]. simpl in Ho. rewrite Ho.
  replace (0 <=? Z.of_nat (k + 0)) with true by (symmetry; apply Z.leb_le; lia).
  rewrite Nat2Z.id, Nat.add_0_r. f_equal.
  rewrite <- (IH (S k) Ha). f_equal.
  apply imap_ext. intros i x _. simpl.
  by replace (k + S i)%nat with (S (k + i))%nat by lia.
Qed.

Lemma valid_indices_all a :
  Forall (λ o, enabled o = true) a → valid_indices a = seq 0 (length a).
Proof. apply (valid_indices_all_from 0). Qed.

(** X3. With an enabled fret, an enabled string and at most 6 strings in
    the settings, [newPosition] sets [correctNote] to one of the labels of
    [NOTE_DISPLAY], the labels the wheel offers: the round has a right
    answer, whatever the draws. *)
Theorem newPosition_answer_on_wheel rs rf w :
  in_unit_interval rs → in_unit_interval rf →
  has_enabled (frets (settings w)) → has_enabled (strings (settings w)) →
  (length (strings (settings w)) ≤ 6)%nat →
  ∃ d, correctNote (newPosition rs rf w) = Some d ∧ d ∈ NOTE_DISPLAY.
Proof.
  intros Hrs Hrf Hf Hs Hlen.
  destruct (drawn_index_enabled _ rs Hrs Hs) as (s & Hsl & _).
  destruct (drawn_index_enabled _ rf Hrf Hf) as (f & Hfl & _).
  pose proof (drawn_index_lt _ _ _ Hsl) as Hs6.
  destruct (note_in_range s f) as (note & Hnote & Hin); [lia|].
  destruct (display_label note Hin) as (d & Hd & Hdin).
  exists d. split; [|exact Hdin].
  unfold newPosition. cbn [correctNote pos_string pos_fret].
  rewrite settings_cancel_auto_advance, Hsl, Hfl, Hnote. exact Hd.
Qed.

Lemma newPosition_answer_on_wheel_witness :
  ∃ d, correctNote (newPosition half half (loaded empty_storage)) = Some d
     ∧ d ∈ NOTE_DISPLAY.
Proof.
  apply newPosition_answer_on_wheel.
  - unfold in_unit_interval. simpl. lia.
  - unfold in_unit_interval. simpl. lia.
  - exists 0%nat. reflexivity.
  - exists 0%nat. reflexivity.
  - simpl. lia.
Defined.

(** X4. With every fret of 13 and every string of 6 enabled, as in the
    default settings, [newPosition] picks the position and the
    [correctNote] that the earlier [newPosition], which knows no settings,
    picks from the same two draws. *)
Theorem newPosition_agrees_with_legacy rs rf w :
  in_unit_interval rs → in_unit_interval rf →
  length (frets (settings w)) = 13%nat →
  length (strings (settings w)) = 6%nat →
  Forall (λ o, enabled o = true) (frets (settings w)) →
  Forall (λ o, enabled o = true) (strings (settings w)) →
  (currentPosition (newPosition rs rf w), correctNote (newPosition rs rf w))
  = Legacy.newPosition rs rf.
Proof.
  intros Hrs Hrf Hlf Hls Hf Hs.
  unfold newPosition, Legacy.newPosition.
  cbn [currentPosition correctNote pos_string pos_fret].
  rewrite settings_cancel_auto_advance.
  rewrite (valid_indices_all _ Hf), (valid_indices_all _ Hs).
  rewrite !length_seq, Hlf, Hls.
  rewrite !lookup_seq_lt by (apply floor_scaled_lt; [done | unfold FRET_COUNT; lia]).
  reflexivity.
Qed.

Lemma newPosition_agrees_with_legacy_witness :
  (currentPosition (newPosition half half (loaded empty_storage)),
   correctNote (newPosition half half (loaded empty_storage)))
  = Legacy.newPosition half half.
Proof.
  apply newPosition_agrees_with_legacy.
  - unfold in_unit_interval. simpl. lia.
  - unfold in_unit_interval. simpl. lia.
  - reflexivity.
  - reflexivity.
  - repeat constructor.
  - repeat constructor.
Defined.

End PositionFacts.

(** ** Frames *)

Section FrameFacts.



Variable coerced_update : json → string → string → bool → coerced.

Lemma quota_saveStats (v : json) (ls : localStorage) :
  quota_full (saveStats v ls) = quota_full ls.
Proof. unfold saveStats, setItem. by destruct (quota_full ls) eqn:Hq. Qed.

Lemma quota_saveSettings (s : Settings) (ls : localStorage) :
  quota_full (saveSettings s ls) = quota_full ls.
Proof. unfold saveSettings, setItem. by destruct (quota_full ls) eqn:Hq. Qed.

Lemma settings_slot_saveStats (v : json) (ls : localStorage) :
  settings_slot (saveStats v ls) = settings_slot ls.
Proof. unfold saveStats, setItem. by destruct (quota_full ls). Qed.

Lemma stats_slot_saveSettings (s : Settings) (ls : localStorage) :
  stats_slot (saveSettings s ls) = stats_slot ls.
Proof. unfold saveSettings, setItem. by destruct (quota_full ls). Qed.

Lemma currentPosition_handleGuess (note : string) w :
  currentPosition (final (handleGuess coerced_update note w))
  = currentPosition w
  ∧ correctNote (final (handleGuess coerced_update note w)) = correctNote w.
Proof.
  unfold handleGuess. destruct (hasAnswered w); [done|].
  destruct (update_stats _ _ _ _ _); [done | done |].
  by destruct (bool_decide _).
Qed.

(** The part of [localStorage] a guess leaves alone. *)
Lemma storage_handleGuess (note : string) w :
  quota_full (storage (final (handleGuess coerced_update note w)))
  = quota_full (storage w)
  ∧ settings_slot (storage (final (handleGuess coerced_update note w)))
    = settings_slot (storage w).
Proof.
  unfold handleGuess. destruct (hasAnswered w); [done|].
  destruct (update_stats _ _ _ _ _); [done | done |].
  destruct (bool_decide _); cbn [final storage];
    by rewrite quota_saveStats, settings_slot_saveStats.
Qed.

Lemma quota_step w e :
  quota_full (storage (step coerced_update w e)) = quota_full (storage w).
Proof.
  destruct e as [note|rs rf|rs rf|h rs rf|c|i|i| | | | |c];
    unfold step; cbn [handle_event final].
  - apply storage_handleGuess.
  - by rewrite storage_newPosition.
  - unfold advance_key. destruct (nextBtn_hidden w); [done|].
    by rewrite storage_newPosition.
  - unfold timer_fires. destruct (list_find _ _); [|done].
    by rewrite storage_newPosition.
  - by destruct c.
  - unfold fret_toggle_click. destruct (toggle_rejected _ _); [done|].
    apply quota_saveSettings.
  - unfold string_toggle_click. destruct (toggle_rejected _ _); [done|].
    apply quota_saveSettings.
  - apply quota_saveSettings.
  - apply quota_saveSettings.
  - apply quota_saveSettings.
  - apply quota_saveSettings.
  - destruct c; [apply quota_saveSettings | done].
Qed.

Lemma settings_frame_step w e :
  settings_event e = false →
  settings (step coerced_update w e) = settings w
  ∧ settings_slot (storage (step coerced_update w e))
    = settings_slot (storage w).
Proof.
  intros He.
  destruct e as [note|rs rf|rs rf|h rs rf|c|i|i| | | | |c];
    try discriminate He; unfold step; cbn [handle_event final].
  - split; [apply settings_handleGuess | apply storage_handleGuess].
  - by rewrite settings_newPosition, storage_newPosition.
  - unfold advance_key. destruct (nextBtn_hidden w); [done|].
    by rewrite settings_newPosition, storage_newPosition.
  - unfold timer_fires. destruct (list_find _ _); [|done].
    by rewrite settings_newPosition, storage_newPosition.
  - by destruct c.
Qed.

Lemma stats_frame_step w e :
  stats_event e = false →
  stats_slot (storage (step coerced_update w e)) = stats_slot (storage w)
  ∧ sessionCorrect (step coerced_update w e) = sessionCorrect w
  ∧ sessionTotal (step coerced_update w e) = sessionTotal w.
Proof.
  intros He.
  assert (∀ rs rf w0, stats_slot (storage (newPosition rs rf w0))
                      = stats_slot (storage w0)
                    ∧ sessionCorrect (newPosition rs rf w0) = sessionCorrect w0
                    ∧ sessionTotal (newPosition rs rf w0) = sessionTotal w0)
    as Hnew.
  { intros rs rf w0. rewrite storage_newPosition.
    unfold newPosition, cancel_auto_advance. cbn [sessionCorrect sessionTotal].
    by destruct (autoAdvanceTimeout w0) as [[|h]|]. }
  destruct e as [note|rs rf|rs rf|h rs rf|c|i|i| | | | |c];
    try discriminate He; unfold step; cbn [handle_event final].
  - apply Hnew.
  - unfold advance_key. destruct (nextBtn_hidden w); [done|]. apply Hnew.
  - unfold timer_fires. destruct (list_find _ _); [|done].
    destruct (Hnew rs rf
      {| currentPosition := currentPosition w;
         correctNote := correctNote w;
         hasAnswered := hasAnswered w;
         sessionCorrect := sessionCorrect w;
         sessionTotal := sessionTotal w;
         autoAdvanceTimeout := autoAdvanceTimeout w;
         settings := settings w;
         storage := storage w;
         timers := clearTimeout h (timers w);
         last_handle := last_handle w;
         nextBtn_hidden := nextBtn_hidden w |}) as (H1 & H2 & H3).
    by rewrite H1, H2, H3.
  - unfold fret_toggle_click. destruct (toggle_rejected _ _); [done|].
    split; [apply stats_slot_saveSettings | done].
  - unfold string_toggle_click. destruct (toggle_rejected _ _); [done|].
    split; [apply stats_slot_saveSettings | done].
  - split; [apply stats_slot_saveSettings | done].
  - split; [apply stats_slot_saveSettings | done].
  - split; [apply stats_slot_saveSettings | done].
  - split; [apply stats_slot_saveSettings | done].
  - destruct c; [|done]. split; [apply stats_slot_saveSettings | done].
Qed.

(** X5. The settings handlers leave the stored statistics and the session
    counters as they are; every other handler leaves the settings, in
    memory and in [localStorage], as they are. *)
Theorem handlers_keep_to_their_key w e :
  (settings_event e = false →
     settings (step coerced_update w e) = settings w
     ∧ settings_slot (storage (step coerced_update w e))
       = settings_slot (storage w))
  ∧ (stats_event e = false →
       stats_slot (storage (step coerced_update w e)) = stats_slot (storage w)
       ∧ sessionCorrect (step coerced_update w e) = sessionCorrect w
       ∧ sessionTotal (step coerced_update w e) = sessionTotal w).
Proof. split; [apply settings_frame_step | apply stats_frame_step]. Qed.

End FrameFacts.

Lemma handlers_keep_to_their_key_witness :
  settings (step some_coercions (page_load empty_storage half half) (Guess "A"))
  = settings (page_load empty_storage half half)
  ∧ stats_slot (storage (step some_coercions
                           (page_load empty_storage half half) FretsNoneClick))
    = stats_slot (storage (page_load empty_storage half half)).
Proof.
  split.
  - apply (proj1 (handlers_keep_to_their_key some_coercions
                    (page_load empty_storage half half) (Guess "A"))).
    reflexivity.
  - apply (proj2 (handlers_keep_to_their_key some_coercions
                    (page_load empty_storage half half) FretsNoneClick)).
    reflexivity.
Defined.

(** ** The shape of the settings and the board *)

Lemma shaped_all_true (n : nat) : shaped n (all_true n).
Proof.
  split; [apply length_replicate|].
  apply Forall_replicate. by eexists.
Qed.

Lemma shaped_load_field (m : gmap string json) (f : string) (n : nat) a :
  shaped n a → shaped n (load_field m f n a).
Proof.
  intros Ha. unfold load_field.
  destruct (m !! f) as [[| | | |l|]|]; try exact Ha.
  case_decide as Hlen; [|exact Ha]. split.
  - by rewrite length_map.
  - apply Forall_fmap, Forall_true. intros x. by eexists.
Qed.

Lemma shaped_toggle (n : nat) a (i : nat) :
  (i < n)%nat → shaped n a → shaped n (toggle a i).
Proof.
  intros Hi [Hlen Hall]. unfold toggle.
  destruct (toggle_rejected a i); [done|].
  unfold array_set. rewrite decide_True by lia. split.
  - by rewrite length_insert.
  - apply Forall_insert; [exact Hall | by eexists].
Qed.

Lemma shaped_map_index (n : nat) (f : nat → json) a :
  shaped n a → shaped n (map_index f a).
Proof.
  intros [Hlen Hall]. split.
  - unfold map_index. by rewrite length_imap.
  - apply Forall_lookup. intros i o Ho.
    rewrite lookup_map_index in Ho.
    destruct (a !! i) as [x|] eqn:Hx; [|discriminate Ho].
    injection Ho as <-.
    rewrite Forall_lookup in Hall. destruct (Hall i x Hx) as [v ->].
    by eexists.
Qed.

Lemma well_shaped_loadSettings (ls : localStorage) (s : Settings) :
  well_shaped s → well_shaped (loadSettings ls s).
Proof.
  intros [Hf Hs]. unfold loadSettings.
  destruct (getItem SETTINGS_KEY ls) as [| | |[| | | | |m]]; try by split.
  split; by apply (shaped_load_field m).
Qed.

Lemma on_board_newPosition rs rf w :
  well_shaped (settings w) → on_board (currentPosition (newPosition rs rf w)).
Proof.
  intros [[Hf _] [Hs _]]. unfold newPosition.
  cbn [currentPosition]. rewrite settings_cancel_auto_advance.
  split; cbn [pos_string pos_fret]; intros j Hj;
    apply drawn_index_lt in Hj; lia.
Qed.

Section Board.

Variable coerced_update : json → string → string → bool → coerced.

Lemma board_step w e :
  toggle_in_range e = true →
  well_shaped (settings w) ∧ on_board (currentPosition w) →
  well_shaped (settings (step coerced_update w e))
  ∧ on_board (currentPosition (step coerced_update w e)).
Proof.
  intros He [Hw Hp]. pose proof Hw as [Hf Hs].
  destruct e as [note|rs rf|rs rf|h rs rf|c|i|i| | | | |c];
    unfold step; cbn [handle_event final]; cbn [toggle_in_range] in He.
  - rewrite settings_handleGuess.
    by rewrite (proj1 (currentPosition_handleGuess coerced_update note w)).
  - rewrite settings_newPosition. split; [done | by apply on_board_newPosition].
  - unfold advance_key. destruct (nextBtn_hidden w); [done|].
    rewrite settings_newPosition. split; [done | by apply on_board_newPosition].
  - unfold timer_fires. destruct (list_find _ _); [|done].
    rewrite settings_newPosition. split; [done | by apply on_board_newPosition].
  - by destruct c.
  - apply Nat.ltb_lt in He.
    unfold fret_toggle_click. destruct (toggle_rejected _ _); [done|].
    split; [|done]. split; [by apply shaped_toggle | done].
  - apply Nat.ltb_lt in He.
    unfold string_toggle_click. destruct (toggle_rejected _ _); [done|].
    split; [|done]. split; [done | by apply shaped_toggle].
  - split; [|done]. split; [by apply shaped_map_index | done].
  - split; [|done]. split; [by apply shaped_map_index | done].
  - split; [|done]. split; [done | by apply shaped_map_index].
  - split; [|done]. split; [done | by apply shaped_map_index].
  - destruct c; [|done]. split; [|done]. split; apply shaped_all_true.
Qed.

Lemma board_run (es : list event) w :
  forallb toggle_in_range es = true →
  well_shaped (settings w) ∧ on_board (currentPosition w) →
  well_shaped (settings (run coerced_update w es))
  ∧ on_board (currentPosition (run coerced_update w es)).
Proof.
  revert w. induction es as [|e es IH]; intros w Hes Hw; [exact Hw|].
  simpl in Hes. apply andb_prop in Hes as [He Hes].
  apply IH; [exact Hes|]. by apply board_step.
Qed.

(** X6. Whatever [localStorage] holds when the page loads, and whatever
    the user does on buttons of the page (toggle indices 0 to 12 and 0 to
    5), the settings keep 13 frets and 6 strings without hole, the
    position, where defined, has its string below 6 and its fret below 13,
    and [positionDot] puts the dot in columns 1 to 13 and rows 2 to 7. *)
Theorem position_stays_on_board (ls : localStorage) rs rf (es : list event) :
  forallb toggle_in_range es = true →
  let w := run coerced_update (page_load ls rs rf) es in
  let cell := positionDot (pos_string (currentPosition w))
                (pos_fret (currentPosition w)) in
  well_shaped (settings w)
  ∧ on_board (currentPosition w)
  ∧ (∀ c, gridColumn cell = Some c → (1 ≤ c ≤ 13)%nat)
  ∧ (∀ r, gridRow cell = Some r → (2 ≤ r ≤ 7)%nat).
Proof.
  intros Hes w cell.
  assert (well_shaped (settings w) ∧ on_board (currentPosition w))
    as [Hw [Hs Hf]].
  { apply board_run; [exact Hes|].
    assert (well_shaped (settings (loaded ls))) as Hl.
    { apply well_shaped_loadSettings. split; apply shaped_all_true. }
    unfold page_load. rewrite settings_newPosition.
    split; [exact Hl | by apply on_board_newPosition]. }
  split; [exact Hw|]. split; [by split|].
  subst cell. unfold positionDot. cbn [gridColumn gridRow]. split.
  - intros c Hc. destruct (pos_fret (currentPosition w)) as [f|]; [|done].
    injection Hc as <-. specialize (Hf f eq_refl). lia.
  - intros r Hr. destruct (pos_string (currentPosition w)) as [s|]; [|done].
    injection Hr as <-. specialize (Hs s eq_refl). lia.
Qed.

End Board.

Lemma position_stays_on_board_witness :
  on_board
    (currentPosition
       (run some_coercions (page_load storage_frets_off half half)
          [FretToggleClick 12; NextClick half half; Guess "A";
           StringsNoneClick; NextClick half half])).
Proof.
  apply (position_stays_on_board some_coercions storage_frets_off half half
           [FretToggleClick 12; NextClick half half; Guess "A";
            StringsNoneClick; NextClick half half]).
  reflexivity.
Defined.

(** ** Saving and reloading the settings *)

Lemma unhole_Some a :
  Forall is_Some a →
  map Some (map (λ o : option json, match o with
                                    | Some v => v
                                    | None => JNull
                                    end) a) = a.
Proof.
  induction 1 as [|o a [v ->] _ IH]; [reflexivity|].
  simpl. by rewrite IH.
Qed.

Lemma load_field_stringified (m : gmap string json) (f : string) (n : nat)
    a (current : jsarray) :
  m !! f = Some (stringify_array a) → shaped n a →
  load_field m f n current = a.
Proof.
  intros Hm [Hlen Hall]. unfold load_field. rewrite Hm.
  unfold stringify_array. rewrite decide_True by (by rewrite length_map).
  by apply unhole_Some.
Qed.

(** What [saveSettings] writes, [loadSettings] reads back. *)
Lemma loadSettings_saveSettings (s s0 : Settings) (ls : localStorage) :
  quota_full ls = false → well_shaped s →
  loadSettings (saveSettings s ls) s0 = s.
Proof.
  intros Hq [Hf Hs]. unfold loadSettings, saveSettings, setItem, getItem.
  rewrite Hq. cbn [settings_slot]. unfold stringify_settings.
  destruct s as [fr st]. cbn [frets strings] in *. f_equal.
  - apply load_field_stringified; [|done]. by rewrite lookup_insert_eq.
  - apply load_field_stringified; [|done].
    rewrite lookup_insert_ne by done. by rewrite lookup_insert_eq.
Qed.

Lemma loadSettings_same_slot (ls ls' : localStorage) (s : Settings) :
  settings_slot ls = settings_slot ls' → loadSettings ls s = loadSettings ls' s.
Proof. intros H. unfold loadSettings, getItem. by rewrite H. Qed.

Section Reload.

Variable coerced_update : json → string → string → bool → coerced.

Lemma reload_commit (s : Settings) w :
  quota_full (storage w) = false → well_shaped s →
  reload_invariant (commit_settings s w).
Proof.
  intros Hq Hs. unfold reload_invariant.
  cbn [commit_settings with_storage with_settings storage settings loaded].
  split; [by rewrite quota_saveSettings|]. split; [exact Hs|].
  by apply loadSettings_saveSettings.
Qed.

Lemma reload_step w e :
  toggle_in_range e = true →
  reload_invariant w → reload_invariant (step coerced_update w e).
Proof.
  intros He (Hq & Hw & Hl).
  destruct (settings_event e) eqn:Hse.
  - pose proof Hw as [Hf Hs].
    destruct e as [note|rs rf|rs rf|h rs rf|c|i|i| | | | |c];
      try discriminate Hse; unfold step; cbn [handle_event final];
      cbn [toggle_in_range] in He.
    + apply Nat.ltb_lt in He. unfold fret_toggle_click.
      destruct (toggle_rejected _ _); [done|].
      apply reload_commit; [done|]. split; [by apply shaped_toggle | done].
    + apply Nat.ltb_lt in He. unfold string_toggle_click.
      destruct (toggle_rejected _ _); [done|].
      apply reload_commit; [done|]. split; [done | by apply shaped_toggle].
    + apply reload_commit; [done|]. split; [by apply shaped_map_index | done].
    + apply reload_commit; [done|]. split; [by apply shaped_map_index | done].
    + apply reload_commit; [done|]. split; [done | by apply shaped_map_index].
    + apply reload_commit; [done|]. split; [done | by apply shaped_map_index].
    + destruct c; [|done]. apply reload_commit; [done|].
      split; apply shaped_all_true.
  - destruct (settings_frame_step coerced_update w e Hse) as [Hset Hslot].
    unfold reload_invariant. rewrite quota_step, Hset.
    split; [exact Hq|]. split; [exact Hw|].
    rewrite <- Hl. cbn [loaded settings].
    by apply loadSettings_same_slot.
Qed.

Lemma reload_run (es : list event) w :
  forallb toggle_in_range es = true →
  reload_invariant w → reload_invariant (run coerced_update w es).
Proof.
  revert w. induction es as [|e es IH]; intros w Hes Hw; [exact Hw|].
  simpl in Hes. apply andb_prop in Hes as [He Hes].
  apply IH; [exact Hes|]. by apply reload_step.
Qed.

(** X7. Well-shaped settings that [saveSettings] has written are the
    settings [loadSettings] reads back; and while writes succeed, after
    any actions on the buttons of the page, loading the page again from
    the [localStorage] of that moment restores the settings in memory. *)
Theorem settings_survive_reload :
  (∀ s s0 ls, quota_full ls = false → well_shaped s →
     loadSettings (saveSettings s ls) s0 = s)
  ∧ (∀ ls rs rf es,
       quota_full ls = false →
       forallb toggle_in_range es = true →
       let w := run coerced_update (page_load ls rs rf) es in
       settings (loaded (storage w)) = settings w).
Proof.
  split; [exact loadSettings_saveSettings|].
  intros ls rs rf es Hq Hes w.
  apply (reload_run es (page_load ls rs rf)); [exact Hes|].
  unfold reload_invariant, page_load.
  rewrite storage_newPosition, settings_newPosition.
  split; [exact Hq|]. split; [|reflexivity].
  apply well_shaped_loadSettings. split; apply shaped_all_true.
Qed.

End Reload.

Lemma settings_survive_reload_witness :
  settings
    (loaded (storage (run some_coercions (page_load empty_storage half half)
                        [FretsNoneClick; FretToggleClick 5; Guess "A"])))
  = settings (run some_coercions (page_load empty_storage half half)
                [FretsNoneClick; FretToggleClick 5; Guess "A"]).
Proof.
  apply (proj2 (settings_survive_reload some_coercions)
           empty_storage half half
           [FretsNoneClick; FretToggleClick 5; Guess "A"]);
    reflexivity.
Defined.

(** ** The buttons of the settings panel *)

Lemma read_selectNone a (i : nat) :
  anchored a → (read_truthy (selectNone a) i = true ↔ i = 0%nat).
Proof.
  intros [x Hx]. unfold read_truthy, selectNone.
  rewrite lookup_map_index. split.
  - destruct (a !! i) as [[v|]|]; simpl; [|done|done].
    destruct i; [done|]. simpl. discriminate.
  - intros ->. by rewrite Hx.
Qed.

Lemma read_selectAll a (i : nat) :
  Forall is_Some a → (i < length a)%nat → read_truthy (selectAll a) i = true.
Proof.
  intros Hall Hi. unfold read_truthy, selectAll. rewrite lookup_map_index.
  destruct (lookup_lt_is_Some_2 a i Hi) as [o Ho]. rewrite Ho.
  rewrite Forall_lookup in Hall. by destruct (Hall i o Ho) as [v ->].
Qed.

(** X8. After the None button of the frets, whatever was enabled before,
    fret 0 is the only enabled fret and every new position is on an open
    string; after the None button of the strings every new position is on
    string 0.  After an All button every index of an array without hole
    is enabled. *)
Theorem none_and_all_buttons :
  (∀ rs rf w, anchored (frets (settings w)) → in_unit_interval rf →
     valid_indices (frets (settings (frets_none_click w))) = [0%nat]
     ∧ pos_fret (currentPosition (newPosition rs rf (frets_none_click w)))
       = Some 0%nat)
  ∧ (∀ rs rf w, anchored (strings (settings w)) → in_unit_interval rs →
       valid_indices (strings (settings (strings_none_click w))) = [0%nat]
       ∧ pos_string (currentPosition (newPosition rs rf (strings_none_click w)))
         = Some 0%nat)
  ∧ (∀ a, Forall is_Some a →
       valid_indices (selectAll a) = seq 0 (length a)
       ∧ activeCount (selectAll a) = length a).
Proof.
  assert (∀ a, anchored a → valid_indices (selectNone a) = [0%nat]) as Hnone.
  { intros a Ha.
    pose proof (proj2 (read_selectNone a 0 Ha) eq_refl) as Hhead.
    assert (∀ i, read_truthy (selectNone a) (S i) = false) as Htail.
    { intros i. destruct (read_truthy (selectNone a) (S i)) eqn:Hi; [|done].
      by apply read_selectNone in Hi. }
    destruct (selectNone a) as [|o t]; [done|].
    rewrite valid_indices_cons. unfold read_truthy in Hhead. simpl in Hhead.
    rewrite Hhead.
    rewrite (proj2 (valid_indices_nil t)); [done|].
    intros [i Hi]. specialize (Htail i). unfold read_truthy in *.
    simpl in Htail. congruence. }
  assert (∀ (r : draw), in_unit_interval r →
            [0%nat] !! floor_scaled r (length [0%nat]) = Some 0%nat) as Hdraw.
  { intros r Hr. pose proof (floor_scaled_lt r 1 Hr) as Hlt.
    simpl. destruct (floor_scaled r 1); [done | lia]. }
  split; [|split].
  - intros rs rf w Ha Hrf.
    assert (valid_indices (frets (settings (frets_none_click w))) = [0%nat])
      as Hv by (by apply Hnone).
    split; [exact Hv|]. unfold newPosition. cbn [currentPosition pos_fret].
    rewrite settings_cancel_auto_advance, Hv. by apply Hdraw.
  - intros rs rf w Ha Hrs.
    assert (valid_indices (strings (settings (strings_none_click w))) = [0%nat])
      as Hv by (by apply Hnone).
    split; [exact Hv|]. unfold newPosition. cbn [currentPosition pos_string].
    rewrite settings_cancel_auto_advance, Hv. by apply Hdraw.
  - intros a Hall.
    assert (Forall (λ o, enabled o = true) (selectAll a)) as Hen.
    { apply Forall_lookup. intros i o Ho. unfold selectAll in Ho.
      rewrite lookup_map_index in Ho.
      destruct (a !! i) as [x|] eqn:Hx; [|discriminate Ho].
      injection Ho as <-.
      rewrite Forall_lookup in Hall. by destruct (Hall i x Hx) as [v ->]. }
    assert (length (selectAll a) = length a) as Hlen
      by (unfold selectAll, map_index; by rewrite length_imap).
    split.
    + by rewrite (valid_indices_all _ Hen), Hlen.
    + rewrite <- Hlen. unfold activeCount.
      generalize (selectAll a) Hen. clear.
      induction 1 as [|o l Ho _ IH]; [done|].
      rewrite filter_cons. rewrite decide_True by (by rewrite Ho).
      simpl. by rewrite IH.
Qed.

Lemma none_and_all_buttons_witness :
  pos_fret
    (currentPosition
       (newPosition half half
          (frets_none_click (page_load empty_storage half half))))
  = Some 0%nat.
Proof.
  apply (proj1 none_and_all_buttons half half
           (page_load empty_storage half half)).
  - by exists (JBool true).
  - unfold in_unit_interval. simpl. lia.
Defined.






(** ** The statistics *)

Lemma entry_at_bump (c : bool) (k : string) (m : gmap string Entry) :
  entry_at k (bump c k m) = credit c (entry_at k m).
Proof. unfold entry_at at 1. by rewrite bump_lookup. Qed.

Lemma sum_corrects_fresh (k : string) (e : Entry) (m : gmap string Entry) :
  m !! k = None → sum_corrects (<[k := e]> m) = correct e + sum_corrects m.
Proof.
  intros Hk. unfold sum_corrects.
  apply (map_fold_insert_L (λ _ x acc, correct x + acc)); [|done].
  intros. lia.
Qed.

Lemma sum_corrects_lookup (k : string) (e : Entry) (m : gmap string Entry) :
  m !! k = Some e → sum_corrects m = correct e + sum_corrects (delete k m).
Proof.
  intros Hk. unfold sum_corrects.
  apply (map_fold_delete_L (λ _ x acc, correct x + acc)); [|done].
  intros. lia.
Qed.

Lemma sum_corrects_bump (c : bool) (k : string) (m : gmap string Entry) :
  sum_corrects (bump c k m) = sum_corrects m + (if c then 1 else 0).
Proof.
  rewrite bump_insert. unfold entry_at.
  destruct (m !! k) as [e|] eqn:Hk; simpl.
  - rewrite <- insert_delete_eq.
    rewrite sum_corrects_fresh by apply lookup_delete_eq.
    rewrite (sum_corrects_lookup k e m Hk). simpl. destruct c; lia.
  - rewrite sum_corrects_fresh by done. simpl. destruct c; lia.
Qed.

Lemma entries_sound_bump (c : bool) (k : string) (m : gmap string Entry) :
  entries_sound m → entries_sound (bump c k m).
Proof.
  intros Hm j e. rewrite bump_insert.
  destruct (decide (k = j)) as [<- | Hne].
  - rewrite lookup_insert_eq. intros [= <-].
    assert (0 ≤ correct (entry_at k m) ≤ total (entry_at k m)) as H0.
    { unfold entry_at. destruct (m !! k) as [e0|] eqn:Hk; simpl.
      - by apply (Hm k).
      - lia. }
    unfold credit. simpl. destruct c; lia.
  - rewrite lookup_insert_ne by done. apply Hm.
Qed.

Lemma stats_sound_recordAttempt (r : StatsRecord) (note fret : string)
    (c : bool) :
  stats_sound r → stats_sound (recordAttempt r note fret c).
Proof.
  intros (Ht & Hn & Hf). unfold stats_sound.
  cbn [recordAttempt totalCorrect totalAttempts noteStats fretStats].
  split; [destruct c; lia|].
  split; by apply entries_sound_bump.
Qed.

Lemma stats_balanced_recordAttempt (r : StatsRecord) (note fret : string)
    (c : bool) :
  stats_balanced r → stats_balanced (recordAttempt r note fret c).
Proof.
  intros [[Hn Hf] [Hcn Hcf]]. unfold stats_balanced.
  cbn [recordAttempt totalCorrect totalAttempts noteStats fretStats].
  rewrite !sum_totals_bump, !sum_corrects_bump.
  destruct c; lia.
Qed.

Lemma entries_sound_seeded {A : Type} (key : A → string) (l : list A)
    (m : gmap string Entry) :
  entries_sound m →
  entries_sound (foldl (λ m x, <[key x := zero]> m) m l).
Proof.
  revert m. induction l as [|x l IH]; intros m Hm; [exact Hm|].
  apply IH. intros j y. destruct (decide (key x = j)) as [<- | Hne].
  - rewrite lookup_insert_eq. intros [= <-]. cbn. lia.
  - rewrite lookup_insert_ne by done. apply Hm.
Qed.

Lemma stats_sound_empty : stats_sound createEmptyStats.
Proof.
  assert (entries_sound (∅ : gmap string Entry)) as H0.
  { intros k y Hk. by rewrite lookup_empty in Hk. }
  split; [cbn; lia|]. split.
  - by apply (entries_sound_seeded id).
  - by apply (entries_sound_seeded pretty).
Qed.

Lemma stats_balanced_empty : stats_balanced createEmptyStats.
Proof. vm_compute. repeat split; reflexivity. Qed.

Section StoredStats.

Variable coerced_update : json → string → string → bool → coerced.

(** A property of the record of [createEmptyStats] that [recordAttempt]
    keeps. *)
Variable P : StatsRecord → Prop.
Hypothesis P_empty : P createEmptyStats.
Hypothesis P_attempt : ∀ r note fret c, P r → P (recordAttempt r note fret c).

Lemma stored_stats_step w e :
  stored_stats P (storage w) →
  stored_stats P (storage (step coerced_update w e)).
Proof.
  intros Hw. destruct (stats_event e) eqn:He.
  - destruct e as [note|rs rf|rs rf|h rs rf|c|i|i| | | | |c];
      try discriminate He; unfold step; cbn [handle_event final].
    + unfold handleGuess. destruct (hasAnswered w); [exact Hw|].
      destruct Hw as (r & Hr & HP).
      rewrite (update_stats_decoded _ _ r) by exact Hr.
      assert (stored_stats P
                (saveStats
                   (encodeStats
                      (recordAttempt r (prop_key (correctNote w))
                         (num_key (pos_fret (currentPosition w)))
                         (bool_decide (Some note = correctNote w))))
                   (storage w))) as Hsaved.
      { unfold saveStats, setItem. destruct (quota_full (storage w)).
        - by exists r.
        - eexists. split; [apply decodeStats_encodeStats|]. by apply P_attempt. }
      by destruct (bool_decide _).
    + destruct c; [|done]. exists createEmptyStats.
      split; [apply decodeStats_encodeStats | exact P_empty].
  - destruct (stats_frame_step coerced_update w e He) as (Hslot & _).
    destruct Hw as (r & Hr & HP). exists r. split; [|exact HP].
    unfold loadStats, getItem in *. by rewrite Hslot.
Qed.

Lemma stored_stats_run (es : list event) w :
  stored_stats P (storage w) →
  stored_stats P (storage (run coerced_update w es)).
Proof.
  revert w. induction es as [|e es IH]; intros w Hw; [exact Hw|].
  apply IH. by apply stored_stats_step.
Qed.

Lemma stored_stats_page (ls : localStorage) rs rf (es : list event) :
  stored_stats P ls →
  stored_stats P (storage (run coerced_update (page_load ls rs rf) es)).
Proof.
  intros Hls. apply stored_stats_run. unfold page_load.
  by rewrite storage_newPosition.
Qed.

End StoredStats.

Lemma attempts_from_cons (r : StatsRecord) (x : string * string * bool)
    (l : list (string * string * bool)) :
  attempts_from r (x :: l)
  = attempts_from (recordAttempt r x.1.1 x.1.2 x.2) l.
Proof. reflexivity. Qed.

(** X11. [recordAttempt] never lets an entry, or the record as a whole,
    count more right answers than attempts, nor a negative number of
    them: the property holds of the record of [createEmptyStats], every
    attempt keeps it, and it holds of the stored record in every state the
    page reaches from a [localStorage] where it holds. *)
Theorem stats_stay_sound
    (coerced_update : json → string → string → bool → coerced) :
  stats_sound createEmptyStats
  ∧ (∀ r note fret c, stats_sound r → stats_sound (recordAttempt r note fret c))
  ∧ (∀ ls rs rf es,
       stored_stats stats_sound ls →
       stored_stats stats_sound
         (storage (run coerced_update (page_load ls rs rf) es))).
Proof.
  split; [exact stats_sound_empty|].
  split; [exact stats_sound_recordAttempt|].
  intros ls rs rf es. apply stored_stats_page.
  - exact stats_sound_empty.
  - exact stats_sound_recordAttempt.
Qed.

Lemma stats_stay_sound_witness :
  stored_stats stats_sound
    (storage (run some_coercions (page_load empty_storage half half)
                [Guess "A"; NextClick half half; Guess "G#/Ab"])).
Proof.
  apply (proj2 (proj2 (stats_stay_sound some_coercions))).
  exists createEmptyStats.
  split; [apply decodeStats_encodeStats | exact stats_sound_empty].
Defined.

(** X12. In the record of [createEmptyStats], and after every attempt at
    keys of the page on counters in the range where [++] is exact,
    [totalAttempts] is the sum
    of the [total] fields of [noteStats] and of [fretStats] alike, and
    [totalCorrect] the sum of their [correct] fields; so it is for the
    stored record in every state the page reaches, by events on its
    buttons, from a [localStorage] where it holds and whose counters leave
    room for as many attempts as there are events. *)
Theorem stats_stay_balanced
    (coerced_update : json → string → string → bool → coerced) :
  stats_balanced createEmptyStats
  ∧ (∀ r note fret c,
       attempt_exact r note fret c →
       stats_balanced r → stats_balanced (recordAttempt r note fret c))
  ∧ (∀ ls rs rf es,
       forallb toggle_in_range es = true →
       stored_stats (λ r, stats_balanced r ∧ has_room (length es) r) ls →
       stored_stats stats_balanced
         (storage (run coerced_update (page_load ls rs rf) es))).
Proof.
  split; [exact stats_balanced_empty|].
  split; [intros r note fret c _; apply stats_balanced_recordAttempt|].
  intros ls rs rf es _ (r & Hr & Hb & _). apply stored_stats_page.
  - exact stats_balanced_empty.
  - exact stats_balanced_recordAttempt.
  - by exists r.
Qed.

Lemma stats_stay_balanced_witness :
  stored_stats stats_balanced
    (storage (run some_coercions (page_load empty_storage half half)
                [Guess "A"; ResetStatsClick true; Guess "G#/Ab"])).
Proof.
  apply (proj2 (proj2 (stats_stay_balanced some_coercions)));
    [reflexivity|].
  exists createEmptyStats.
  split; [apply decodeStats_encodeStats|].
  split; [exact stats_balanced_empty|].
  apply has_room_empty. unfold MAX_EXACT. simpl. lia.
Defined.

(** X13. [n] attempts with the same note, fret and outcome, at keys of
    the page and on counters with room for [n] exact increments, add [n] to [totalAttempts] and to
    the [total] of the entry of the note and of the entry of the fret, and
    add [n] to [totalCorrect] and to the two [correct] fields when the
    outcome is right, nothing when it is wrong; the other entries are as
    they were. *)
Theorem repeated_attempts (n : nat) (r : StatsRecord) (note fret : string)
    (c : bool) :
  attempt_room n r note fret c →
  let r' := attempts_from r (replicate n (note, fret, c)) in
  let gained := if c then Z.of_nat n else 0 in
  totalAttempts r' = totalAttempts r + Z.of_nat n
  ∧ totalCorrect r' = totalCorrect r + gained
  ∧ entry_at note (noteStats r')
    = {| correct := correct (entry_at note (noteStats r)) + gained;
         total := total (entry_at note (noteStats r)) + Z.of_nat n |}
  ∧ entry_at fret (fretStats r')
    = {| correct := correct (entry_at fret (fretStats r)) + gained;
         total := total (entry_at fret (fretStats r)) + Z.of_nat n |}
  ∧ (∀ k, k ≠ note → noteStats r' !! k = noteStats r !! k)
  ∧ (∀ k, k ≠ fret → fretStats r' !! k = fretStats r !! k).
Proof.
  intros _. revert r. induction n as [|n IH]; intros r.
  - cbn [replicate attempts_from foldl Z.of_nat].
    destruct c; repeat split; try lia;
      by destruct (entry_at _ _) as [x y]; f_equal; cbn; lia.
  - cbn [replicate]. rewrite attempts_from_cons. cbn [fst snd].
    destruct (IH (recordAttempt r note fret c))
      as (Ha & Hc & Hn & Hf & Hon & Hof).
    cbn zeta. rewrite Ha, Hc, Hn, Hf.
    cbn [recordAttempt totalAttempts totalCorrect noteStats fretStats].
    rewrite !entry_at_bump. unfold credit. cbn [correct total].
    split; [lia|]. split; [destruct c; lia|].
    split; [destruct c; f_equal; lia|].
    split; [destruct c; f_equal; lia|].
    split.
    + intros k Hk. rewrite (Hon k Hk). by apply bump_lookup_other.
    + intros k Hk. rewrite (Hof k Hk). by apply bump_lookup_other.
Qed.

Lemma repeated_attempts_witness :
  noteStats (attempts_from createEmptyStats (replicate 3 ("A", "0", true)))
    !! "B"
  = noteStats createEmptyStats !! "B".
Proof.
  destruct (repeated_attempts 3 createEmptyStats "A" "0" true)
    as (_ & _ & _ & _ & Hother & _).
  - exact_range.
  - apply Hother. discriminate.
Defined.

(** ** The session counters *)

Section Session.

Variable coerced_update : json → string → string → bool → coerced.




Lemma loadStats_same_slot (ls ls' : localStorage) :
  stats_slot ls = stats_slot ls' → loadStats ls = loadStats ls'.
Proof. intros H. unfold loadStats, getItem. by rewrite H. Qed.

Lemma session_matches_step w e :
  quota_full (storage w) = false →
  session_matches_stats w →
  session_matches_stats (step coerced_update w e).
Proof.
  intros Hq Hw. destruct (stats_event e) eqn:He.
  - destruct e as [note|rs rf|rs rf|h rs rf|c|i|i| | | | |c];
      try discriminate He; unfold step; cbn [handle_event final].
    + unfold handleGuess. destruct (hasAnswered w); [exact Hw|].
      destruct Hw as (r & Hr & Ht & Hc).
      rewrite (update_stats_decoded _ _ r) by exact Hr.
      assert (∀ v, loadStats (saveStats v (storage w)) = v) as Hsave.
      { intros v. unfold saveStats, setItem. by rewrite Hq. }
      destruct (bool_decide _); unfold session_matches_stats, stored_stats;
        cbn [final storage sessionTotal sessionCorrect];
        rewrite Hsave; eexists; (split; [apply decodeStats_encodeStats|]);
        cbn [recordAttempt totalAttempts totalCorrect]; lia.
    + destruct c; [|exact Hw]. exists createEmptyStats.
      split; [apply decodeStats_encodeStats | done].
  - destruct (stats_frame_step coerced_update w e He) as (Hslot & Hsc & Hst).
    destruct Hw as (r & Hr & Ht & Hc). exists r.
    rewrite (loadStats_same_slot _ (storage w) Hslot), Hsc, Hst. done.
Qed.

(** X15. After a confirmed reset of the statistics, and after a page load
    without stored statistics, the stored record counts what the session
    counters count; while writes succeed every handler keeps it so:
    [totalAttempts] is [sessionTotal] and [totalCorrect] is
    [sessionCorrect]. *)
Theorem session_matches_stats_kept :
  (∀ w, session_matches_stats (reset_stats_click true w))
  ∧ (∀ ls rs rf, (∀ v, stats_slot ls ≠ Parsed v) →
       session_matches_stats (page_load ls rs rf))
  ∧ (∀ es w, quota_full (storage w) = false →
       session_matches_stats w →
       session_matches_stats (run coerced_update w es)).
Proof.
  split; [|split].
  - intros w. exists createEmptyStats.
    split; [apply decodeStats_encodeStats | done].
  - intros ls rs rf Hls.
    unfold session_matches_stats, stored_stats, page_load.
    rewrite storage_newPosition. cbn [loaded storage].
    rewrite (loadStats_default ls Hls). exists createEmptyStats.
    split; [apply decodeStats_encodeStats|].
    unfold newPosition, cancel_auto_advance.
    cbn [sessionCorrect sessionTotal loaded autoAdvanceTimeout]. done.
  - induction es as [|e es IH]; intros w Hq Hw; [exact Hw|].
    apply IH; [by rewrite quota_step | by apply session_matches_step].
Qed.

(** X16. When the write that a handler attempts fails (quota exceeded),
    the failure is swallowed: every handler but the confirmed reset of the
    statistics, which removes a key, leaves [localStorage] as it was, and
    a first guess on a well-formed stored record still returns and is
    counted in the session. *)
Theorem failed_writes_are_swallowed :
  (∀ w e, quota_full (storage w) = true →
     e ≠ ResetStatsClick true →
     storage (step coerced_update w e) = storage w)
  ∧ (∀ note w r, quota_full (storage w) = true →
       hasAnswered w = false →
       decodeStats (loadStats (storage w)) = Some r →
       exact (sessionTotal w) →
       ∃ w', handleGuess coerced_update note w = Returns w'
           ∧ sessionTotal w' = sessionTotal w + 1
           ∧ storage w' = storage w).
Proof.
  assert (∀ v ls, quota_full ls = true → saveStats v ls = ls) as Hst.
  { intros v ls Hq. unfold saveStats, setItem. by rewrite Hq. }
  assert (∀ s ls, quota_full ls = true → saveSettings s ls = ls) as Hse.
  { intros s ls Hq. unfold saveSettings, setItem. by rewrite Hq. }
  split.
  - intros w e Hq Hne.
    destruct e as [note|rs rf|rs rf|h rs rf|c|i|i| | | | |c];
      unfold step; cbn [handle_event final].
    + unfold handleGuess. destruct (hasAnswered w); [done|].
      destruct (update_stats _ _ _ _ _); [done | done |].
      destruct (bool_decide _); cbn [final storage]; by apply Hst.
    + apply storage_newPosition.
    + unfold advance_key. destruct (nextBtn_hidden w); [done|].
      apply storage_newPosition.
    + unfold timer_fires. destruct (list_find _ _); [|done].
      by rewrite storage_newPosition.
    + destruct c; [by destruct Hne | done].
    + unfold fret_toggle_click. destruct (toggle_rejected _ _); [done|].
      by apply Hse.
    + unfold string_toggle_click. destruct (toggle_rejected _ _); [done|].
      by apply Hse.
    + by apply Hse.
    + by apply Hse.
    + by apply Hse.
    + by apply Hse.
    + destruct c; [by apply Hse | done].
  - intros note w r Hq Hans Hr _. unfold handleGuess. rewrite Hans.
    rewrite (update_stats_decoded _ _ r) by exact Hr.
    destruct (bool_decide _); eexists; (split; [reflexivity|]);
      cbn [sessionTotal storage]; (split; [done | by apply Hst]).
Qed.

(** X17. A round whose [correctNote] is [undefined] has no right answer:
    on a well-formed stored record, with writes succeeding, the fret a
    key of the page and the counters concerned in the range where [++] is
    exact, every guess is
    counted as wrong, is recorded under the note key "undefined", and
    shows the Next button without scheduling a timer. *)
Theorem undefined_round_has_no_right_answer (note : string) w
    (r : StatsRecord) :
  correctNote w = None →
  hasAnswered w = false →
  decodeStats (loadStats (storage w)) = Some r →
  quota_full (storage w) = false →
  exact (sessionTotal w) →
  attempt_exact r "undefined" (num_key (pos_fret (currentPosition w))) false →
  ∃ w' r',
    handleGuess coerced_update note w = Returns w'
    ∧ sessionCorrect w' = sessionCorrect w
    ∧ sessionTotal w' = sessionTotal w + 1
    ∧ nextBtn_hidden w' = false
    ∧ timers w' = timers w
    ∧ stats_slot (storage w') = Parsed (encodeStats r')
    ∧ totalCorrect r' = totalCorrect r
    ∧ totalAttempts r' = totalAttempts r + 1
    ∧ noteStats r' !! "undefined"
      = Some (credit false (entry_at "undefined" (noteStats r))).
Proof.
  intros Hc Hans Hr Hq _ _. unfold handleGuess. rewrite Hans, Hc.
  rewrite bool_decide_eq_false_2 by discriminate.
  rewrite (update_stats_decoded _ _ r) by exact Hr.
  eexists.
  exists (recordAttempt r "undefined"
            (num_key (pos_fret (currentPosition w))) false).
  split; [reflexivity|].
  cbn [sessionCorrect sessionTotal nextBtn_hidden timers storage].
  do 4 (split; [reflexivity|]).
  split; [unfold saveStats, setItem; by rewrite Hq|].
  do 2 (split; [reflexivity|]).
  cbn [recordAttempt noteStats]. apply bump_lookup.
Qed.

End Session.


Lemma session_matches_stats_kept_witness :
  session_matches_stats
    (run some_coercions (page_load empty_storage half half)
       [Guess "A"; NextClick half half; Guess "G#/Ab"; FretsNoneClick]).
Proof.
  destruct (session_matches_stats_kept some_coercions) as (_ & Hload & Hrun).
  apply Hrun; [reflexivity|].
  apply Hload. intros v H. discriminate H.
Defined.

Lemma failed_writes_are_swallowed_witness :
  storage
    (step some_coercions
       (page_load {| stats_slot := Absent; settings_slot := Absent;
                     quota_full := true |} half half)
       FretsNoneClick)
  = storage
      (page_load {| stats_slot := Absent; settings_slot := Absent;
                    quota_full := true |} half half).
Proof.
  apply (proj1 (failed_writes_are_swallowed some_coercions));
    [reflexivity | discriminate].
Defined.

Lemma undefined_round_has_no_right_answer_witness :
  ∃ w' r',
    handleGuess some_coercions "E" (page_load storage_frets_off half half)
    = Returns w'
    ∧ sessionCorrect w'
      = sessionCorrect (page_load storage_frets_off half half)
    ∧ stats_slot (storage w') = Parsed (encodeStats r').
Proof.
  destruct (undefined_round_has_no_right_answer some_coercions "E"
              (page_load storage_frets_off half half) createEmptyStats)
    as (w' & r' & Hret & Hsc & _ & _ & _ & Hslot & _).
  - vm_compute. reflexivity.
  - reflexivity.
  - unfold page_load. rewrite storage_newPosition.
    apply decodeStats_encodeStats.
  - reflexivity.
  - unfold exact, MAX_EXACT. vm_compute. split; [discriminate | reflexivity].
  - exact_range.
  - exists w', r'. split; [exact Hret | split; [exact Hsc | exact Hslot]].
Defined.

(** ** The round from one event to the next *)

Section Flow.

Variable coerced_update : json → string → string → bool → coerced.

Lemma next_hidden_step w e :
  next_hidden_while_awaiting w →
  next_hidden_while_awaiting (step coerced_update w e).
Proof.
  intros Hw. unfold next_hidden_while_awaiting in *.
  destruct e as [note|rs rf|rs rf|h rs rf|c|i|i| | | | |c];
    unfold step; cbn [handle_event final].
  - rewrite hasAnswered_handleGuess. discriminate.
  - done.
  - unfold advance_key. destruct (nextBtn_hidden w) eqn:Hb; [|done].
    intros Ha. exact Hb.
  - unfold timer_fires. destruct (list_find _ _); [done | exact Hw].
  - destruct c; exact Hw.
  - unfold fret_toggle_click. destruct (toggle_rejected _ _); exact Hw.
  - unfold string_toggle_click. destruct (toggle_rejected _ _); exact Hw.
  - exact Hw.
  - exact Hw.
  - exact Hw.
  - exact Hw.
  - destruct c; exact Hw.
Qed.

Lemma next_hidden_run (es : list event) w :
  next_hidden_while_awaiting w →
  next_hidden_while_awaiting (run coerced_update w es).
Proof.
  revert w. induction es as [|e es IH]; intros w Hw; [exact Hw|].
  apply IH. by apply next_hidden_step.
Qed.

Lemma timer_fires_none_pending (h : nat) rs rf w :
  timers w = [] → timer_fires h rs rf w = w.
Proof. intros Ht. unfold timer_fires. by rewrite Ht. Qed.

(** X18. In every state the page reaches, while a guess is awaited no
    timer is pending and the Next button is hidden: a timer that fires and
    the advance key leave the state as it is, and every event other than
    a guess and a click on Next leaves the question, its answer and the
    fact that it awaits a guess as they are. *)
Theorem awaited_question_stays (ls : localStorage) rs rf (es : list event) :
  let w := run coerced_update (page_load ls rs rf) es in
  hasAnswered w = false →
  timers w = []
  ∧ nextBtn_hidden w = true
  ∧ (∀ h rs' rf', step coerced_update w (TimerFires h rs' rf') = w)
  ∧ (∀ rs' rf', step coerced_update w (AdvanceKey rs' rf') = w)
  ∧ (∀ e, answers_or_skips e = false →
       currentPosition (step coerced_update w e) = currentPosition w
       ∧ correctNote (step coerced_update w e) = correctNote w
       ∧ hasAnswered (step coerced_update w e) = false).
Proof.
  intros w Hans.
  assert (timers w = []) as Ht.
  { pose proof (timers_tracked_run coerced_update es _
                  (timers_tracked_page_load ls rs rf)) as (_ & Hnone & _).
    by apply Hnone. }
  assert (nextBtn_hidden w = true) as Hb.
  { apply (next_hidden_run es (page_load ls rs rf)); [|exact Hans].
    intros _. reflexivity. }
  split; [exact Ht|]. split; [exact Hb|].
  assert (∀ h rs' rf', step coerced_update w (TimerFires h rs' rf') = w) as Hf.
  { intros h rs' rf'. unfold step. cbn [handle_event final].
    by apply timer_fires_none_pending. }
  assert (∀ rs' rf', step coerced_update w (AdvanceKey rs' rf') = w) as Hk.
  { intros rs' rf'. unfold step. cbn [handle_event final].
    unfold advance_key. by rewrite Hb. }
  split; [exact Hf|]. split; [exact Hk|].
  intros e He.
  destruct e as [note|rs' rf'|rs' rf'|h rs' rf'|c|i|i| | | | |c];
    try discriminate He.
  - by rewrite Hk.
  - by rewrite Hf.
  - unfold step. cbn [handle_event final]. by destruct c.
  - unfold step. cbn [handle_event final].
    unfold fret_toggle_click. by destruct (toggle_rejected _ _).
  - unfold step. cbn [handle_event final].
    unfold string_toggle_click. by destruct (toggle_rejected _ _).
  - done.
  - done.
  - done.
  - done.
  - unfold step. cbn [handle_event final]. by destruct c.
Qed.

(** X19. After a guess that completes on a question with the Next button
    hidden and no timer pending: if the guess was wrong, the Next button
    shows and the advance key starts a new round; if it was right, the
    button stays hidden, the advance key does nothing, the scheduled
    timer, when it fires, starts a new round with no timer left, and once
    a click on Next has started the new round first, the timer that fires
    late does nothing. *)
Theorem after_a_guess (note : string) w w' :
  timers w = [] → nextBtn_hidden w = true → hasAnswered w = false →
  handleGuess coerced_update note w = Returns w' →
  (Some note ≠ correctNote w →
     nextBtn_hidden w' = false
     ∧ ∀ rs rf, advance_key rs rf w' = newPosition rs rf w'
              ∧ hasAnswered (newPosition rs rf w') = false)
  ∧ (Some note = correctNote w →
       nextBtn_hidden w' = true
       ∧ (∀ rs rf, advance_key rs rf w' = w')
       ∧ ∃ h, autoAdvanceTimeout w' = Some h
            ∧ ∀ rs rf,
                hasAnswered (timer_fires h rs rf w') = false
                ∧ timers (timer_fires h rs rf w') = []
                ∧ autoAdvanceTimeout (timer_fires h rs rf w') = None
                ∧ ∀ rs2 rf2,
                    timer_fires h rs2 rf2 (newPosition rs rf w')
                    = newPosition rs rf w').
Proof.
  intros Ht Hb Hans Hret. unfold handleGuess in Hret. rewrite Hans in Hret.
  split.
  - intros Hwrong. rewrite (bool_decide_eq_false_2 _ Hwrong) in Hret.
    destruct (update_stats _ _ _ _ _); try discriminate Hret.
    injection Hret as <-. split; [reflexivity|].
    intros rs rf. unfold advance_key. cbn [nextBtn_hidden]. done.
  - intros Hright. rewrite (bool_decide_eq_true_2 _ Hright) in Hret.
    destruct (update_stats _ _ _ _ _); try discriminate Hret.
    injection Hret as <-. cbn [nextBtn_hidden autoAdvanceTimeout].
    split; [exact Hb|]. split.
    + intros rs rf. unfold advance_key. cbn [nextBtn_hidden]. by rewrite Hb.
    + exists (S (last_handle w)). split; [reflexivity|].
      intros rs rf. rewrite Ht.
      assert (∀ l, clearTimeout (S (last_handle w))
                     (clearTimeout (S (last_handle w))
                        [{| handle := S (last_handle w);
                            action := run_newPosition; delay := 800 |}]) = l
                   → l = []) as Hclear.
      { intros l <-. unfold clearTimeout. rewrite filter_cons.
        by rewrite decide_False by (cbn; congruence). }
      unfold timer_fires. cbn [timers list_find].
      rewrite decide_True by reflexivity.
      cbn [fmap option_fmap option_map].
      split; [reflexivity|]. split.
      { unfold newPosition, cancel_auto_advance.
        cbn [timers autoAdvanceTimeout]. by apply Hclear. }
      split; [reflexivity|].
      intros rs2 rf2. apply timer_fires_none_pending.
      unfold newPosition, cancel_auto_advance.
      cbn [timers autoAdvanceTimeout]. unfold clearTimeout.
      rewrite filter_cons. by rewrite decide_False by (cbn; congruence).
Qed.



End Flow.

Lemma awaited_question_stays_witness :
  timers (run some_coercions (page_load empty_storage half half)
            [Guess "G#/Ab"; NextClick half half]) = [].
Proof.
  apply (awaited_question_stays some_coercions empty_storage half half
           [Guess "G#/Ab"; NextClick half half]).
  reflexivity.
Defined.

Lemma after_a_guess_witness :
  nextBtn_hidden
    (final (handleGuess some_coercions "A" (page_load empty_storage half half)))
  = false.
Proof.
  apply (after_a_guess some_coercions "A"
           (page_load empty_storage half half)
           (final (handleGuess some_coercions "A"
                     (page_load empty_storage half half))));
    [reflexivity | reflexivity | reflexivity | vm_compute; reflexivity
    | vm_compute; discriminate].
Defined.


End FurtherFacts.
